(** * POSIX semaphores over the kernel semaphore: named-semaphore registry
      and timed wait (kernel/posix/semaphore.c, include/posix/semaphore.h)

    The C code is embedded as functions on an explicit state: the static
    table [sem_named], the static counter [sem_named_n] and [errno].
    Every registry function runs between [irq_lock] and [irq_unlock], so
    one call is one transition of the state. *)

From Stdlib Require Import ZArith String Ascii Bool Lia.
From stdpp Require Import base list.

Local Open Scope Z_scope.

(** ** Machine integers *)

(** [u32_t] values. *)
Definition wrap_u32 (z : Z) : Z := z mod 2 ^ 32.

(** [s32_t] / [int] values (conversion to a signed 32-bit type). *)
Definition wrap_s32 (z : Z) : Z := (z + 2 ^ 31) mod 2 ^ 32 - 2 ^ 31.

(** [s64_t] values. *)
Definition wrap_s64 (z : Z) : Z := (z + 2 ^ 63) mod 2 ^ 64 - 2 ^ 63.

Definition in_s32 (z : Z) : Prop := - 2 ^ 31 <= z < 2 ^ 31.

(** ** Constants of the headers *)

Definition PATH_MAX : nat := 64.
Definition O_CREAT : Z := Z.shiftl 1 0.
Definition O_EXCL : Z := Z.shiftl 1 1.
Definition UINT_MAX : Z := 2 ^ 32 - 1.
Definition SEM_VALUE_MAX : Z := UINT_MAX.
Definition SEM_NAMED_N_LIMIT : Z := 32.

(** Error numbers.  errno.h is not among the sources; the values are the
    ones of the kernel's C library.  Only the fact that they are pairwise
    distinct is used below. *)
Definition ENOENT : Z := 2.
Definition EAGAIN : Z := 11.
Definition EBUSY : Z := 16.
Definition EEXIST : Z := 17.
Definition EINVAL : Z := 22.
Definition ENFILE : Z := 23.
Definition ETIMEDOUT : Z := 60.

(** ** The kernel semaphore *)

(** Modelled from the spec: the kernel primitive [struct k_sem] with
    [k_sem_init] and [k_sem_count_get] (kernel.h is not among the sources).
    The spec gives it as [init(count, max)] and [count()]; the wait queue
    is left out. *)
Record k_sem := { sem_count : Z; sem_limit : Z }.

Definition k_sem_init (_ : k_sem) (initial_count limit : Z) : k_sem :=
  {| sem_count := wrap_u32 initial_count; sem_limit := wrap_u32 limit |}.

Definition k_sem_count_get (s : k_sem) : Z := sem_count s.

(** [sem_init]: the object after the call; the return value is always 0. *)
Definition sem_init (s : k_sem) (pshared : Z) (value : Z) : Z * k_sem :=
  (0, k_sem_init s value SEM_VALUE_MAX).

(** [sem_destroy]: return value and [errno] after the call. *)
Definition sem_destroy (s : k_sem) (errno0 : Z) : Z * Z :=
  if negb (k_sem_count_get s =? 0) then (-1, EBUSY) else (0, errno0).

(** [sem_getvalue]: the value stored through [sval]. *)
Definition sem_getvalue (s : k_sem) : Z * Z := (0, wrap_s32 (k_sem_count_get s)).

(** ** Strings *)

(** [strncmp] of the C library on NUL-terminated strings: a string ends
    at its end or at its first NUL character. *)
Fixpoint strncmp (s1 s2 : string) (n : nat) : Z :=
  match n with
  | O => 0
  | S n' =>
      match s1, s2 with
      | EmptyString, EmptyString => 0
      | EmptyString, String c2 _ => 0 - Z.of_N (N_of_ascii c2)
      | String c1 _, EmptyString => Z.of_N (N_of_ascii c1) - 0
      | String c1 r1, String c2 r2 =>
          if Ascii.eqb c1 c2
          then if Ascii.eqb c1 zero then 0 else strncmp r1 r2 n'
          else Z.of_N (N_of_ascii c1) - Z.of_N (N_of_ascii c2)
      end
  end.

(** ** The table of named semaphores *)

(** [struct _nsem].  [name] is a pointer: [None] is the null pointer of a
    slot that was never allocated, [Some s] points to the string [s]
    (the caller's string is taken not to change while the slot holds it). *)
Record _nsem := {
  sem : k_sem;
  name : option string;
  refs : Z;          (* u32_t *)
  to_free : bool;
  in_use : bool
}.

(** A [sem_t *]: null, the address of the [sem] member of [sem_named[i]],
    or the address of a semaphore outside the table. *)
Inductive sem_ptr :=
| NULL
| slot_sem (i : nat)
| other_sem (addr : Z).

Definition SEM_FAILED : sem_ptr := NULL.

Definition sem_ptr_eqb (p q : sem_ptr) : bool :=
  match p, q with
  | NULL, NULL => true
  | slot_sem i, slot_sem j => Nat.eqb i j
  | other_sem a, other_sem b => a =? b
  | _, _ => false
  end.

(** The static data of semaphore.c, and [errno]. *)
Record state := {
  sem_named_n : Z;             (* int *)
  sem_named : list _nsem;      (* SEM_NAMED_N_LIMIT slots *)
  errno : Z
}.

Definition set_errno (code : Z) (st : state) : state :=
  {| sem_named_n := sem_named_n st; sem_named := sem_named st; errno := code |}.

Definition set_table (tbl : list _nsem) (st : state) : state :=
  {| sem_named_n := sem_named_n st; sem_named := tbl; errno := errno st |}.

(** The loop shared by the three searches,
    [while (it != lmt && !semp) { if (hit) semp = it; ++it; }]:
    the index of the first slot, from [i] on, that [hit] accepts. *)
Fixpoint scan (hit : nat -> _nsem -> bool) (its : list _nsem) (i : nat) : option nat :=
  match its with
  | [] => None
  | it :: rest => if hit i it then Some i else scan hit rest (S i)
  end.

(** [strncmp(name, it->name, PATH_MAX)].  On a slot that was never
    allocated the C code reads through a null pointer; the result is
    taken to be non-zero.  Such a slot has [in_use] false, so the test of
    [find_by_name_nsem] fails on it whatever [strncmp] gives. *)
Definition strncmp_slot (nm : string) (it : _nsem) : Z :=
  match name it with
  | Some s => strncmp nm s PATH_MAX
  | None => 1
  end.

Definition find_by_name_nsem (nm : string) (st : state) : option nat :=
  scan (fun _ it => (strncmp_slot nm it =? 0) && in_use it) (sem_named st) 0.

Definition find_by_addr_nsem (p : sem_ptr) (st : state) : option nat :=
  scan (fun i it => sem_ptr_eqb (slot_sem i) p && in_use it) (sem_named st) 0.

(** [--nsem->refs], returned as [int]. *)
Definition dereference_nsem (i : nat) (st : state) : Z * state :=
  match sem_named st !! i with
  | Some it =>
      let r := wrap_u32 (refs it - 1) in
      (wrap_s32 r,
       set_table (alter (fun it => {| sem := sem it; name := name it; refs := r;
                                      to_free := to_free it; in_use := in_use it |})
                        i (sem_named st)) st)
  | None => (0, st)
  end.

(** The slot [alloc_nsem] writes. *)
Definition claim_slot (nm : string) (it : _nsem) : _nsem :=
  {| sem := sem it; name := Some nm; refs := 1; to_free := false; in_use := true |}.

(** [alloc_nsem]: the first slot not in use is taken; [None] is the null
    pointer returned when every slot is in use. *)
Definition alloc_nsem (nm : string) (st : state) : option nat * state :=
  match scan (fun _ it => negb (in_use it)) (sem_named st) 0 with
  | Some i => (Some i, set_table (alter (claim_slot nm) i (sem_named st)) st)
  | None => (None, st)
  end.

(** [free_nsem]: [in_use] is cleared, then [sem_destroy] runs on the
    embedded semaphore; its return value is dropped, what it wrote to
    [errno] stays. *)
Definition free_nsem (i : nat) (st : state) : state :=
  match sem_named st !! i with
  | Some it =>
      let tbl := alter (fun it => {| sem := sem it; name := name it; refs := refs it;
                                     to_free := to_free it; in_use := false |})
                       i (sem_named st) in
      {| sem_named_n := sem_named_n st; sem_named := tbl;
         errno := snd (sem_destroy (sem it) (errno st)) |}
  | None => st
  end.

(** [sem_init(&nsem->sem, 0, value)] on slot [i]. *)
Definition init_slot_sem (i : nat) (value : Z) (st : state) : state :=
  set_table (alter (fun it => {| sem := snd (sem_init (sem it) 0 value); name := name it;
                                 refs := refs it; to_free := to_free it;
                                 in_use := in_use it |})
                   i (sem_named st)) st.

Definition slot_to_free (i : nat) (st : state) : bool :=
  match sem_named st !! i with
  | Some it => to_free it
  | None => false
  end.

(** ** The registry functions *)

(** [sem_open(name, oflag, mode, value)]; [value] is read only when the
    semaphore is created.  The result is the returned pointer and the
    state after the call.  [None] stands for the one path on which the C
    code has no defined result: [alloc_nsem] returned the null pointer
    and [sem_init] writes through it. *)
Definition sem_open (nm : string) (oflag : Z) (value : Z) (st : state)
  : option (sem_ptr * state) :=
  if sem_named_n st =? SEM_NAMED_N_LIMIT then Some (SEM_FAILED, set_errno ENFILE st)
  else
    match find_by_name_nsem nm st with
    | Some i =>
        if negb (Z.land oflag O_EXCL =? 0)
        then Some (SEM_FAILED, set_errno EEXIST st)
        else Some (slot_sem i, st)
    | None =>
        if Z.land oflag O_CREAT =? 0
        then Some (SEM_FAILED, set_errno ENOENT st)
        else
          match alloc_nsem nm st with
          | (Some i, st1) =>
              let st2 := init_slot_sem i value st1 in
              Some (slot_sem i,
                    {| sem_named_n := wrap_s32 (sem_named_n st2 + 1);
                       sem_named := sem_named st2; errno := errno st2 |})
          | (None, _) => None
          end
    end.

(** [sem_close(sem)]. *)
Definition sem_close (p : sem_ptr) (st : state) : Z * state :=
  match find_by_addr_nsem p st with
  | None => (-1, set_errno EINVAL st)
  | Some i =>
      let '(nleft, st1) := dereference_nsem i st in
      if nleft =? 0
      then if slot_to_free i st1 then (0, free_nsem i st1) else (0, st1)
      else (0, st1)
  end.

(** [nsem->to_free = true]. *)
Definition mark_to_free (i : nat) (st : state) : state :=
  set_table (alter (fun it => {| sem := sem it; name := name it; refs := refs it;
                                 to_free := true; in_use := in_use it |})
                   i (sem_named st)) st.

(** [sem_unlink(name)]. *)
Definition sem_unlink (nm : string) (st : state) : Z * state :=
  match find_by_name_nsem nm st with
  | None => (-1, set_errno ENOENT st)
  | Some i =>
      let st1 := mark_to_free i st in
      let '(nleft, st2) := dereference_nsem i st1 in
      if nleft =? 0 then (0, free_nsem i st2) else (0, st2)
  end.

(** The static storage at start-up: all zero. *)
Definition empty_slot : _nsem :=
  {| sem := {| sem_count := 0; sem_limit := 0 |}; name := None; refs := 0;
     to_free := false; in_use := false |}.

Definition init_state : state :=
  {| sem_named_n := 0; sem_named := replicate 32 empty_slot; errno := 0 |}.

(** ** Sequences of registry calls *)

Inductive call :=
| Open (nm : string) (oflag value : Z)
| Close (p : sem_ptr)
| Unlink (nm : string).

Inductive result :=
| ptr_result (p : sem_ptr)
| int_result (z : Z).

(** A call failed: [sem_open] gave [SEM_FAILED], the others gave -1. *)
Definition failed (r : result) : bool :=
  match r with
  | ptr_result p => sem_ptr_eqb p SEM_FAILED
  | int_result z => z =? -1
  end.

Definition run_call (c : call) (st : state) : option (result * state) :=
  match c with
  | Open nm oflag value =>
      match sem_open nm oflag value st with
      | Some (p, st') => Some (ptr_result p, st')
      | None => None
      end
  | Close p => let '(z, st') := sem_close p st in Some (int_result z, st')
  | Unlink nm => let '(z, st') := sem_unlink nm st in Some (int_result z, st')
  end.

Fixpoint run_calls (cs : list call) (st : state) : option state :=
  match cs with
  | [] => Some st
  | c :: cs' =>
      match run_call c st with
      | Some (_, st') => run_calls cs' st'
      | None => None
      end
  end.

(** The states the program reaches from start-up. *)
Definition reachable (st : state) : Prop :=
  exists cs, run_calls cs init_state = Some st.

(** The number of slots in use. *)
Fixpoint live_count (tbl : list _nsem) : nat :=
  match tbl with
  | [] => O
  | it :: rest => ((if in_use it then 1 else 0) + live_count rest)%nat
  end.

(** What every reachable state satisfies: the table has its 32 slots and
    the counter is at least the number of slots in use and at most 32. *)
Definition table_inv (st : state) : Prop :=
  length (sem_named st) = 32%nat /\
  Z.of_nat (live_count (sem_named st)) <= sem_named_n st <= SEM_NAMED_N_LIMIT.

(** Slot [i] of the table, with the all-zero slot out of range. *)
Definition slot (i : nat) (st : state) : _nsem :=
  default empty_slot (sem_named st !! i).

(** [sem_open] failed with error [code]. *)
Definition open_fails_with (code : Z) (r : option (sem_ptr * state)) : Prop :=
  exists st', r = Some (SEM_FAILED, st') /\ errno st' = code.

(** ** Timed wait *)

(** [struct timespec] of semaphore.h: two [s32_t] fields. *)
Record timespec := { tv_sec : Z; tv_nsec : Z }.

(** What one call of [sem_timedwait] did: return value, [errno] and the
    semaphore after the call, and the timeouts it passed to [k_sem_take],
    in order. *)
Record timedwait_result := {
  tw_ret : Z;
  tw_errno : Z;
  tw_sem : k_sem;
  tw_takes : list Z
}.

Section TimedWait.

(** [k_sem_take(sem, timeout)] of the kernel: return value and the
    semaphore afterwards.  It may block; what it does is left open. *)
Variable k_sem_take : k_sem -> Z -> Z * k_sem.

(** [__ticks_to_ms] of the kernel headers. *)
Variable __ticks_to_ms : Z -> Z.

(** The deadline in milliseconds, [wakeup] in the code. *)
Definition wakeup_ms (abs_timeout : timespec) : Z :=
  let wakeup := wrap_s64 (wrap_s32 (tv_sec abs_timeout * 1000)) in
  wrap_s64 (wakeup + wrap_s32 (Z.quot (tv_nsec abs_timeout) 1000000)).

(** [now] in the code, from the value [cycles] of [k_cycle_get_32()]. *)
Definition now_ms (cycles : Z) : Z := wrap_s64 (__ticks_to_ms cycles).

(** [sem_timedwait(sem, abs_timeout)], with the value [cycles] that
    [k_cycle_get_32()] gives and [errno] before the call. *)
Definition sem_timedwait (s : k_sem) (abs_timeout : timespec) (cycles : Z) (errno0 : Z)
  : timedwait_result :=
  if (tv_nsec abs_timeout <? 0) || (tv_nsec abs_timeout >? 1000000000)
  then {| tw_ret := -1; tw_errno := EINVAL; tw_sem := s; tw_takes := [] |}
  else
    let wakeup := wakeup_ms abs_timeout in
    let now := now_ms cycles in
    let timeout := wrap_s32 (wrap_s64 (wakeup - now)) in
    let '(rc, s') := k_sem_take s timeout in
    if rc =? - EBUSY
    then {| tw_ret := -1; tw_errno := ETIMEDOUT; tw_sem := s'; tw_takes := [timeout] |}
    else {| tw_ret := 0; tw_errno := errno0; tw_sem := s'; tw_takes := [timeout] |}.

End TimedWait.

(** A kernel semaphore that never blocks, for running [sem_timedwait]:
    it is taken when its count is positive and busy otherwise. *)
Definition take_nowait (s : k_sem) (timeout : Z) : Z * k_sem :=
  if 0 <? sem_count s
  then (0, {| sem_count := sem_count s - 1; sem_limit := sem_limit s |})
  else (- EBUSY, s).

(** A clock of 100 ticks per second. *)
Definition ticks_100hz (ticks : Z) : Z := ticks * 10.

(** ** The states of the scenarios *)

(** The names ["a0"] to ["a31"]. *)
Definition names32 : list string :=
  ["a0"; "a1"; "a2"; "a3"; "a4"; "a5"; "a6"; "a7";
   "a8"; "a9"; "a10"; "a11"; "a12"; "a13"; "a14"; "a15";
   "a16"; "a17"; "a18"; "a19"; "a20"; "a21"; "a22"; "a23";
   "a24"; "a25"; "a26"; "a27"; "a28"; "a29"; "a30"; "a31"]%string.

(** Every name of [names32] created, in order, with initial value 0. *)
Definition create_all : list call :=
  map (fun nm => Open nm O_CREAT 0) names32.

(** The state after [cs], and the start-up state if a call of [cs] has no
    defined result. *)
Definition state_after (cs : list call) : state :=
  default init_state (run_calls cs init_state).

Definition full_table : state := state_after create_all.

(** ["s"] created with initial value 1: one handle, slot 0. *)
Definition opened_s : state := state_after [Open "s" O_CREAT 1].

(** ["s"] created and its only handle closed: slot 0 in use, [refs] 0. *)
Definition closed_s : state := state_after [Open "s" O_CREAT 0; Close (slot_sem 0)].

(** ["s"] created and unlinked. *)
Definition unlinked_s : state := state_after [Open "s" O_CREAT 0; Unlink "s"].

(** All 32 names created, then ["a0"] unlinked and its handle closed. *)
Definition full_then_released : state :=
  state_after (create_all ++ [Unlink "a0"; Close (slot_sem 0)]).

(** A kernel semaphore of count 0. *)
Definition sem0 : k_sem := {| sem_count := 0; sem_limit := UINT_MAX |}.

(** ** Names as the table compares them *)

(** What [strncmp] reads of a string within [n] characters: the
    characters before the first NUL, at most [n] of them. *)
Fixpoint cstr (s : string) (n : nat) {struct n} : string :=
  match n with
  | O => EmptyString
  | S n' =>
      match s with
      | EmptyString => EmptyString
      | String c r => if Ascii.eqb c zero then EmptyString else String c (cstr r n')
      end
  end.



(** Every reference count of the table is a [u32_t] value. *)
Definition refs_in_range (tbl : list _nsem) : Prop :=
  forall i it, tbl !! i = Some it -> 0 <= refs it < 2 ^ 32.

(** Two names of 65 characters that differ only in the last one. *)
Definition prefix64 : string :=
  "aaaaaaaaaaaaaaaaaaaaaaaaaaaaaaaaaaaaaaaaaaaaaaaaaaaaaaaaaaaaaaaa".

Definition long_x : string := String.append prefix64 "x".

Definition long_y : string := String.append prefix64 "y".

(** [long_x] created with initial value 2. *)
Definition opened_long : state := state_after [Open long_x O_CREAT 2].

(** ** Machine-integer facts *)

Lemma wrap_s32_small z : in_s32 z -> wrap_s32 z = z.
Proof.
  unfold in_s32, wrap_s32. intros H.
  rewrite Z.mod_small; lia.
Qed.

Lemma wrap_s32_congr x y : (x - y) mod 2 ^ 32 = 0 -> wrap_s32 x = wrap_s32 y.
Proof.
  unfold wrap_s32. intros H.
  apply Z.mod_divide in H; [|lia]. destruct H as [k Hk].
  replace (x + 2 ^ 31) with (y + 2 ^ 31 + k * 2 ^ 32) by lia.
  now rewrite Z.mod_add by lia.
Qed.

Lemma wrap_s32_diff z : exists k, wrap_s32 z = z + k * 2 ^ 32.
Proof.
  unfold wrap_s32. exists (- ((z + 2 ^ 31) / 2 ^ 32)).
  pose proof (Z.div_mod (z + 2 ^ 31) (2 ^ 32)). lia.
Qed.

Lemma wrap_s64_diff z : exists k, wrap_s64 z = z + k * 2 ^ 32.
Proof.
  unfold wrap_s64. exists (- ((z + 2 ^ 63) / 2 ^ 64) * 2 ^ 32).
  pose proof (Z.div_mod (z + 2 ^ 63) (2 ^ 64)). lia.
Qed.

Lemma wrap_s32_range z : in_s32 (wrap_s32 z).
Proof.
  unfold in_s32, wrap_s32.
  pose proof (Z.mod_pos_bound (z + 2 ^ 31) (2 ^ 32)). lia.
Qed.

(** ** The search loop *)

Lemma scan_Some hit its i j :
  scan hit its i = Some j ->
  (i <= j)%nat /\
  exists it, its !! (j - i)%nat = Some it /\ hit j it = true.
Proof.
  revert i. induction its as [|it rest IH]; intros i H; simpl in H; [discriminate|].
  destruct (hit i it) eqn:Hhit.
  - inversion H; subst j. split; [lia|].
    exists it. rewrite Nat.sub_diag. auto.
  - apply IH in H. destruct H as [Hle [it' [Hl Hh]]].
    split; [lia|]. exists it'. split; [|exact Hh].
    replace (j - i)%nat with (S (j - S i)) by lia. exact Hl.
Qed.

Lemma scan_None hit its i :
  scan hit its i = None ->
  forall k it, its !! k = Some it -> hit (i + k)%nat it = false.
Proof.
  revert i. induction its as [|it rest IH]; intros i H k it' Hl; [discriminate|].
  simpl in H. destruct (hit i it) eqn:Hhit; [discriminate|].
  destruct k as [|k]; simpl in Hl.
  - inversion Hl; subst. now rewrite Nat.add_0_r.
  - replace (i + S k)%nat with (S i + k)%nat by lia. eauto.
Qed.

Lemma scan_hit hit its i k it :
  its !! k = Some it -> hit (i + k)%nat it = true ->
  exists j, scan hit its i = Some j.
Proof.
  intros Hl Hh. destruct (scan hit its i) eqn:E; [eauto|].
  rewrite (scan_None _ _ _ E _ _ Hl) in Hh. discriminate.
Qed.

(** ** The two lookups *)

Lemma find_by_addr_Some p st j :
  find_by_addr_nsem p st = Some j ->
  p = slot_sem j /\ exists it, sem_named st !! j = Some it /\ in_use it = true.
Proof.
  unfold find_by_addr_nsem. intros H.
  apply scan_Some in H. destruct H as [_ [it [Hl Hh]]].
  rewrite Nat.sub_0_r in Hl.
  apply andb_true_iff in Hh. destruct Hh as [Hp Hu].
  split; [|eauto].
  destruct p; simpl in Hp; try discriminate.
  apply Nat.eqb_eq in Hp. now subst.
Qed.

Lemma find_by_addr_live st i it :
  sem_named st !! i = Some it -> in_use it = true ->
  find_by_addr_nsem (slot_sem i) st = Some i.
Proof.
  intros Hl Hu.
  destruct (scan_hit (fun k it0 => sem_ptr_eqb (slot_sem k) (slot_sem i) && in_use it0)
              (sem_named st) 0%nat i it Hl) as [j Hj].
  - simpl. now rewrite Nat.eqb_refl, Hu.
  - unfold find_by_addr_nsem. rewrite Hj. f_equal.
    apply find_by_addr_Some in Hj. destruct Hj as [Hj _]. now inversion Hj.
Qed.

Lemma find_by_addr_dead st i :
  in_use (slot i st) = false -> find_by_addr_nsem (slot_sem i) st = None.
Proof.
  intros Hd. destruct (find_by_addr_nsem (slot_sem i) st) as [j|] eqn:E; [|reflexivity].
  apply find_by_addr_Some in E. destruct E as [Hj [it [Hl Hu]]].
  inversion Hj; subst j. unfold slot in Hd. rewrite Hl in Hd. simpl in Hd. congruence.
Qed.

Lemma find_by_name_Some nm st j :
  find_by_name_nsem nm st = Some j ->
  exists it, sem_named st !! j = Some it /\ in_use it = true /\ strncmp_slot nm it = 0.
Proof.
  unfold find_by_name_nsem. intros H.
  apply scan_Some in H. destruct H as [_ [it [Hl Hh]]].
  rewrite Nat.sub_0_r in Hl.
  apply andb_true_iff in Hh. destruct Hh as [Hp Hu].
  exists it. repeat split; auto. now apply Z.eqb_eq.
Qed.

(** ** The number of slots in use *)

Lemma live_count_le_length l : (live_count l <= length l)%nat.
Proof. induction l as [|it rest IH]; simpl; [lia|]. destruct (in_use it); lia. Qed.

Lemma live_count_alter_keep f i l :
  (forall it, in_use (f it) = in_use it) ->
  live_count (alter f i l) = live_count l.
Proof.
  intros Hf. revert i. induction l as [|it rest IH]; intros [|i]; try reflexivity.
  - change (alter f 0%nat (it :: rest)) with (f it :: rest).
    cbn [live_count]. now rewrite Hf.
  - change (alter f (S i) (it :: rest)) with (it :: alter f i rest).
    cbn [live_count]. now rewrite IH.
Qed.

Lemma live_count_alter_clear f i l :
  (forall it, in_use (f it) = false) ->
  (live_count (alter f i l) <= live_count l)%nat.
Proof.
  intros Hf. revert i. induction l as [|it rest IH]; intros [|i]; try reflexivity.
  - change (alter f 0%nat (it :: rest)) with (f it :: rest).
    cbn [live_count]. rewrite Hf. lia.
  - change (alter f (S i) (it :: rest)) with (it :: alter f i rest).
    cbn [live_count]. specialize (IH i). lia.
Qed.

Lemma live_count_alter_set f i l it :
  l !! i = Some it -> in_use it = false ->
  (forall it', in_use (f it') = true) ->
  live_count (alter f i l) = S (live_count l).
Proof.
  intros Hl Hu Hf. revert i Hl.
  induction l as [|it0 rest IH]; intros [|i] Hl; try discriminate.
  - change (alter f 0%nat (it0 :: rest)) with (f it0 :: rest).
    cbn [live_count]. simpl in Hl. inversion Hl; subst. now rewrite Hf, Hu.
  - change (alter f (S i) (it0 :: rest)) with (it0 :: alter f i rest).
    cbn [live_count]. simpl in Hl. rewrite (IH i Hl). lia.
Qed.

Lemma scan_free_None l i :
  scan (fun _ it => negb (in_use it)) l i = None -> live_count l = length l.
Proof.
  revert i. induction l as [|it rest IH]; intros i H; simpl in *; [reflexivity|].
  destruct (in_use it); simpl in H; [|discriminate].
  now rewrite (IH _ H).
Qed.

(** ** The invariant of the reachable states *)

Lemma init_state_inv : table_inv init_state.
Proof. unfold table_inv. vm_compute. repeat split; congruence. Qed.

Lemma dereference_nsem_inv i st :
  table_inv st -> table_inv (snd (dereference_nsem i st)).
Proof.
  unfold dereference_nsem, table_inv. intros [Hlen Hn].
  destruct (sem_named st !! i); simpl; [|auto].
  rewrite length_alter, live_count_alter_keep; auto.
Qed.

Lemma mark_to_free_inv i st : table_inv st -> table_inv (mark_to_free i st).
Proof.
  unfold mark_to_free, table_inv. intros [Hlen Hn]. simpl.
  rewrite length_alter, live_count_alter_keep; auto.
Qed.

Lemma free_nsem_inv i st : table_inv st -> table_inv (free_nsem i st).
Proof.
  unfold free_nsem, table_inv. intros [Hlen Hn].
  destruct (sem_named st !! i); simpl; [|auto].
  rewrite length_alter. split; [exact Hlen|].
  pose proof (live_count_alter_clear
                (fun it => {| sem := sem it; name := name it; refs := refs it;
                              to_free := to_free it; in_use := false |})
                i (sem_named st) (fun _ => eq_refl)).
  lia.
Qed.

Lemma sem_close_inv p st : table_inv st -> table_inv (snd (sem_close p st)).
Proof.
  intros H. unfold sem_close.
  destruct (find_by_addr_nsem p st) as [i|]; [|exact H].
  pose proof (dereference_nsem_inv i st H) as H1.
  destruct (dereference_nsem i st) as [nleft st1]. simpl in H1.
  destruct (nleft =? 0); [|exact H1].
  destruct (slot_to_free i st1); [|exact H1].
  simpl. now apply free_nsem_inv.
Qed.

Lemma sem_unlink_inv nm st : table_inv st -> table_inv (snd (sem_unlink nm st)).
Proof.
  intros H. unfold sem_unlink.
  destruct (find_by_name_nsem nm st) as [i|]; [|exact H].
  pose proof (dereference_nsem_inv i _ (mark_to_free_inv i st H)) as H1.
  destruct (dereference_nsem i (mark_to_free i st)) as [nleft st2]. simpl in H1.
  destruct (nleft =? 0); [|exact H1].
  simpl. now apply free_nsem_inv.
Qed.

(** On a state that satisfies the invariant [sem_open] has a result: when
    the counter is below 32 a slot is free, so [alloc_nsem] does not
    return the null pointer. *)
Lemma sem_open_defined nm oflag value st :
  table_inv st ->
  exists p st', sem_open nm oflag value st = Some (p, st') /\ table_inv st'.
Proof.
  intros H. pose proof H as [Hlen Hn]. unfold sem_open.
  destruct (sem_named_n st =? SEM_NAMED_N_LIMIT) eqn:Hfull; [eauto|].
  apply Z.eqb_neq in Hfull.
  destruct (find_by_name_nsem nm st) as [i|].
  { destruct (negb (Z.land oflag O_EXCL =? 0)); eauto. }
  destruct (Z.land oflag O_CREAT =? 0); [eauto|].
  unfold alloc_nsem.
  destruct (scan (fun _ it => negb (in_use it)) (sem_named st) 0) as [i|] eqn:Hscan.
  - do 2 eexists. split; [reflexivity|].
    apply scan_Some in Hscan. destruct Hscan as [_ [it [Hl Hfree]]].
    rewrite Nat.sub_0_r in Hl. apply negb_true_iff in Hfree.
    unfold table_inv, init_slot_sem. simpl.
    rewrite !length_alter, live_count_alter_keep by reflexivity.
    rewrite (live_count_alter_set _ _ _ _ Hl Hfree) by reflexivity.
    unfold SEM_NAMED_N_LIMIT in *.
    rewrite wrap_s32_small by (unfold in_s32; lia).
    split; [exact Hlen|lia].
  - exfalso. apply scan_free_None in Hscan.
    unfold SEM_NAMED_N_LIMIT in *. lia.
Qed.

Lemma run_call_inv c st :
  table_inv st -> exists r st', run_call c st = Some (r, st') /\ table_inv st'.
Proof.
  intros H. destruct c as [nm oflag value|p|nm]; simpl.
  - destruct (sem_open_defined nm oflag value st H) as [p [st' [E H']]].
    rewrite E. eauto.
  - pose proof (sem_close_inv p st H). destruct (sem_close p st). eauto.
  - pose proof (sem_unlink_inv nm st H). destruct (sem_unlink nm st). eauto.
Qed.

Lemma run_calls_inv cs st st' :
  table_inv st -> run_calls cs st = Some st' -> table_inv st'.
Proof.
  revert st. induction cs as [|c cs IH]; intros st H E; simpl in E.
  - now inversion E; subst.
  - destruct (run_call_inv c st H) as [r [st1 [E1 H1]]].
    rewrite E1 in E. eauto.
Qed.

Lemma reachable_inv st : reachable st -> table_inv st.
Proof. intros [cs E]. exact (run_calls_inv cs _ _ init_state_inv E). Qed.

(** Every sequence of calls runs to the end from start-up. *)
Lemma run_calls_defined cs st :
  table_inv st -> exists st', run_calls cs st = Some st'.
Proof.
  revert st. induction cs as [|c cs IH]; intros st H; simpl; [eauto|].
  destruct (run_call_inv c st H) as [r [st1 [E1 H1]]].
  rewrite E1. eauto.
Qed.

(** ** What the three calls do to the counter *)

Lemma dereference_nsem_counter i st :
  sem_named_n (snd (dereference_nsem i st)) = sem_named_n st.
Proof. unfold dereference_nsem. now destruct (sem_named st !! i). Qed.

Lemma free_nsem_counter i st : sem_named_n (free_nsem i st) = sem_named_n st.
Proof. unfold free_nsem. now destruct (sem_named st !! i). Qed.

Lemma sem_close_counter p st : sem_named_n (snd (sem_close p st)) = sem_named_n st.
Proof.
  unfold sem_close. destruct (find_by_addr_nsem p st) as [i|]; [|reflexivity].
  pose proof (dereference_nsem_counter i st) as H.
  destruct (dereference_nsem i st) as [nleft st1]. simpl in H.
  destruct (nleft =? 0); [|exact H].
  destruct (slot_to_free i st1); [|exact H].
  simpl. now rewrite free_nsem_counter.
Qed.

Lemma sem_unlink_counter nm st : sem_named_n (snd (sem_unlink nm st)) = sem_named_n st.
Proof.
  unfold sem_unlink. destruct (find_by_name_nsem nm st) as [i|]; [|reflexivity].
  pose proof (dereference_nsem_counter i (mark_to_free i st)) as H.
  destruct (dereference_nsem i (mark_to_free i st)) as [nleft st2]. simpl in H.
  destruct (nleft =? 0); [|exact H].
  simpl. now rewrite free_nsem_counter.
Qed.

(** At capacity [sem_open] fails before it looks at the table. *)
Lemma sem_open_full nm oflag value st :
  sem_named_n st = SEM_NAMED_N_LIMIT ->
  sem_open nm oflag value st = Some (SEM_FAILED, set_errno ENFILE st).
Proof. intros H. unfold sem_open. now rewrite H. Qed.

(** No call lowers the counter: once it is 32 it stays 32. *)
Lemma counter_stays_full cs st st' :
  sem_named_n st = SEM_NAMED_N_LIMIT -> run_calls cs st = Some st' ->
  sem_named_n st' = SEM_NAMED_N_LIMIT.
Proof.
  revert st. induction cs as [|c cs IH]; intros st H E; simpl in E.
  - now inversion E; subst.
  - destruct c as [nm oflag value|p|nm]; simpl in E.
    + rewrite (sem_open_full nm oflag value st H) in E.
      apply (IH (set_errno ENFILE st)); [exact H|exact E].
    + pose proof (sem_close_counter p st) as Hc.
      destruct (sem_close p st) as [z st1]. simpl in Hc.
      apply (IH st1); [congruence|exact E].
    + pose proof (sem_unlink_counter nm st) as Hc.
      destruct (sem_unlink nm st) as [z st1]. simpl in Hc.
      apply (IH st1); [congruence|exact E].
Qed.

(** Below capacity, opening a name that is in use without [O_EXCL]
    returns the address of its semaphore and writes nothing. *)
Lemma sem_open_attach nm oflag value st i :
  sem_named_n st <> SEM_NAMED_N_LIMIT ->
  find_by_name_nsem nm st = Some i ->
  Z.land oflag O_EXCL = 0 ->
  sem_open nm oflag value st = Some (slot_sem i, st).
Proof.
  intros Hn Hf Hx. unfold sem_open.
  apply Z.eqb_neq in Hn. rewrite Hn, Hf, Hx. reflexivity.
Qed.

(** The validation of [sem_timedwait]: the call is refused, and
    [k_sem_take] not called, exactly when [tv_nsec] is negative or above
    1000000000. *)
Lemma sem_timedwait_refused take t2ms s ts cycles e :
  (tv_nsec ts < 0 \/ tv_nsec ts > 1000000000) <->
  sem_timedwait take t2ms s ts cycles e =
    {| tw_ret := -1; tw_errno := EINVAL; tw_sem := s; tw_takes := [] |}.
Proof.
  unfold sem_timedwait. split.
  - intros H.
    destruct (tv_nsec ts <? 0) eqn:E1; [reflexivity|].
    destruct (tv_nsec ts >? 1000000000) eqn:E2; [reflexivity|].
    apply Z.ltb_ge in E1. rewrite Z.gtb_ltb in E2. apply Z.ltb_ge in E2. lia.
  - destruct (tv_nsec ts <? 0) eqn:E1; [apply Z.ltb_lt in E1; auto|].
    destruct (tv_nsec ts >? 1000000000) eqn:E2.
    + rewrite Z.gtb_ltb in E2. apply Z.ltb_lt in E2. right. lia.
    + simpl. destruct (take s _) as [rc s'].
      destruct (rc =? - EBUSY); intros H; inversion H.
Qed.

(** The timeout of an accepted call, when [tv_sec * 1000] does not
    overflow: the difference of deadline and clock, cut to 32 bits. *)
Lemma sem_timedwait_timeout take t2ms s ts cycles e :
  0 <= tv_nsec ts <= 1000000000 ->
  in_s32 (tv_sec ts * 1000) ->
  tw_takes (sem_timedwait take t2ms s ts cycles e) =
    [wrap_s32 (tv_sec ts * 1000 + tv_nsec ts / 1000000 - now_ms t2ms cycles)].
Proof.
  intros Hns Hsec. unfold sem_timedwait.
  destruct (tv_nsec ts <? 0) eqn:E1; [apply Z.ltb_lt in E1; lia|].
  destruct (tv_nsec ts >? 1000000000) eqn:E2;
    [rewrite Z.gtb_ltb in E2; apply Z.ltb_lt in E2; lia|].
  simpl.
  assert (Hw : wrap_s32 (wrap_s64 (wakeup_ms ts - now_ms t2ms cycles)) =
               wrap_s32 (tv_sec ts * 1000 + tv_nsec ts / 1000000 - now_ms t2ms cycles)).
  { unfold wakeup_ms.
    rewrite (wrap_s32_small (tv_sec ts * 1000)) by exact Hsec.
    rewrite Z.quot_div_nonneg by lia.
    set (a := tv_sec ts * 1000). set (b := tv_nsec ts / 1000000).
    set (n := now_ms t2ms cycles).
    apply wrap_s32_congr.
    destruct (wrap_s64_diff a) as [k1 H1].
    destruct (wrap_s32_diff b) as [k2 H2].
    destruct (wrap_s64_diff (wrap_s64 a + wrap_s32 b)) as [k3 H3].
    destruct (wrap_s64_diff (wrap_s64 (wrap_s64 a + wrap_s32 b) - n)) as [k4 H4].
    rewrite H4, H3, H2, H1.
    replace (a + k1 * 2 ^ 32 + (b + k2 * 2 ^ 32) + k3 * 2 ^ 32 - n + k4 * 2 ^ 32 - (a + b - n))
      with ((k1 + k2 + k3 + k4) * 2 ^ 32) by ring.
    apply Z.mod_mul. lia. }
  rewrite Hw.
  destruct (take s _) as [rc s']. now destruct (rc =? - EBUSY).
Qed.

(** ** Reference counting *)

(** C1 (the code departs from the claim).  Opening a name that is in use,
    without the exclusive flag, returns the address of the semaphore in
    its slot, but the reference count is not incremented: after ["s"] is
    created and opened once more the count is still 1, not 2, and one
    close brings it to 0 while a handle is still open. *)
Theorem sem_open_existing_keeps_refs :
  find_by_name_nsem "s" opened_s = Some 0%nat /\
  refs (slot 0 opened_s) = 1 /\
  sem_open "s" 0 0 opened_s = Some (slot_sem 0, opened_s) /\
  refs (slot 0 (state_after [Open "s" O_CREAT 1; Open "s" 0 0])) = 1 /\
  refs (slot 0 (state_after [Open "s" O_CREAT 1; Open "s" 0 0; Close (slot_sem 0)])) = 0.
Proof. vm_compute. repeat split; reflexivity. Qed.

(** C2 (the code departs from the claim).  [sem_unlink] decrements the
    reference count besides setting [to_free], and tears the slot down
    when the count after the decrement is 0.  With the count already 0
    the count wraps and the slot is not torn down; with one handle open
    the slot is torn down at once and the handle is refused by
    [sem_close]. *)
Theorem sem_unlink_decrements_refs :
  (refs (slot 0 closed_s) = 0 /\ in_use (slot 0 closed_s) = true /\
   fst (sem_unlink "s" closed_s) = 0 /\
   slot 0 (snd (sem_unlink "s" closed_s)) =
     {| sem := {| sem_count := 0; sem_limit := UINT_MAX |}; name := Some "s"%string;
        refs := 2 ^ 32 - 1; to_free := true; in_use := true |}) /\
  (refs (slot 0 opened_s) = 1 /\ in_use (slot 0 opened_s) = true /\
   fst (sem_unlink "s" opened_s) = 0 /\
   in_use (slot 0 (snd (sem_unlink "s" opened_s))) = false /\
   fst (sem_close (slot_sem 0) (snd (sem_unlink "s" opened_s))) = -1).
Proof. vm_compute. repeat split; reflexivity. Qed.

(** C9.  [sem_close] on a slot in use whose reference count is 0 returns
    0, leaves the count at 2^32 - 1 and the slot in use; nothing else
    changes. *)
Theorem sem_close_zero_refs_wraps st i it :
  sem_named st !! i = Some it -> in_use it = true -> refs it = 0 ->
  exists st',
    sem_close (slot_sem i) st = (0, st') /\
    sem_named st' !! i =
      Some {| sem := sem it; name := name it; refs := 2 ^ 32 - 1;
              to_free := to_free it; in_use := true |} /\
    (forall j, j <> i -> sem_named st' !! j = sem_named st !! j) /\
    sem_named_n st' = sem_named_n st /\ errno st' = errno st.
Proof.
  intros Hl Hu Hr. unfold sem_close.
  rewrite (find_by_addr_live st i it Hl Hu).
  unfold dereference_nsem. rewrite Hl, Hr.
  change (wrap_s32 (wrap_u32 (0 - 1)) =? 0) with false. cbv iota beta.
  eexists. split; [reflexivity|]. simpl.
  split; [|split; [|split; reflexivity]].
  - rewrite list_lookup_alter_eq, Hl. simpl. now rewrite Hu.
  - intros j Hj. now rewrite list_lookup_alter_ne by congruence.
Qed.

Lemma sem_close_zero_refs_wraps_witness :
  refs (slot 0 closed_s) = 0 /\
  exists st',
    sem_close (slot_sem 0) closed_s = (0, st') /\
    sem_named st' !! 0%nat =
      Some {| sem := sem (slot 0 closed_s); name := name (slot 0 closed_s);
              refs := 2 ^ 32 - 1; to_free := to_free (slot 0 closed_s); in_use := true |} /\
    (forall j, j <> 0%nat -> sem_named st' !! j = sem_named closed_s !! j) /\
    sem_named_n st' = sem_named_n closed_s /\ errno st' = errno closed_s.
Proof.
  split; [reflexivity|].
  apply (sem_close_zero_refs_wraps closed_s 0%nat (slot 0 closed_s)); reflexivity.
Defined.

(** ** Torn-down slots *)

(** C10.  [free_nsem] clears [in_use]; a slot with [in_use] cleared is
    found neither by name nor by address, and [sem_close] on its address
    returns -1 with [errno] set to [EINVAL] and the table and the counter
    as they were. *)
Theorem torn_down_slot_invisible st i :
  in_use (slot i (free_nsem i st)) = false /\
  (in_use (slot i st) = false ->
   (forall nm, find_by_name_nsem nm st <> Some i) /\
   find_by_addr_nsem (slot_sem i) st = None /\
   sem_close (slot_sem i) st = (-1, set_errno EINVAL st) /\
   sem_named (set_errno EINVAL st) = sem_named st /\
   sem_named_n (set_errno EINVAL st) = sem_named_n st).
Proof.
  split.
  - unfold slot, free_nsem. destruct (sem_named st !! i) as [it|] eqn:Hl.
    + simpl. rewrite list_lookup_alter_eq, Hl. reflexivity.
    + rewrite Hl. reflexivity.
  - intros Hd. pose proof (find_by_addr_dead st i Hd) as Ha.
    split; [|split; [exact Ha|split; [|split; reflexivity]]].
    + intros nm Hf. apply find_by_name_Some in Hf.
      destruct Hf as [it [Hl [Hu _]]].
      unfold slot in Hd. rewrite Hl in Hd. simpl in Hd. congruence.
    + unfold sem_close. now rewrite Ha.
Qed.

Lemma torn_down_slot_invisible_witness :
  in_use (slot 0 unlinked_s) = false /\
  (forall nm, find_by_name_nsem nm unlinked_s <> Some 0%nat) /\
  find_by_addr_nsem (slot_sem 0) unlinked_s = None /\
  sem_close (slot_sem 0) unlinked_s = (-1, set_errno EINVAL unlinked_s) /\
  sem_named (set_errno EINVAL unlinked_s) = sem_named unlinked_s /\
  sem_named_n (set_errno EINVAL unlinked_s) = sem_named_n unlinked_s.
Proof.
  split; [reflexivity|].
  apply (proj2 (torn_down_slot_invisible unlinked_s 0%nat)). reflexivity.
Defined.

(** ** Capacity *)

(** C3 (the code departs from the claim).  The 32 names are created and a
    33rd creation fails with [ENFILE]; unlinking ["a0"] tears its slot
    down (the close of its handle then fails), 31 slots are in use, but
    the counter is still 32 and creating ["a32"] fails with [ENFILE]
    again: nothing decrements [sem_named_n]. *)
Theorem capacity_not_released :
  run_calls create_all init_state = Some full_table /\
  live_count (sem_named full_table) = 32%nat /\
  sem_open "a32" O_CREAT 0 full_table = Some (SEM_FAILED, set_errno ENFILE full_table) /\
  fst (sem_unlink "a0" full_table) = 0 /\
  fst (sem_close (slot_sem 0) (snd (sem_unlink "a0" full_table))) = -1 /\
  in_use (slot 0 full_then_released) = false /\
  live_count (sem_named full_then_released) = 31%nat /\
  sem_named_n full_then_released = 32 /\
  sem_open "a32" O_CREAT 0 full_then_released =
    Some (SEM_FAILED, set_errno ENFILE full_then_released).
Proof. vm_compute. repeat split; reflexivity. Qed.

(** C4, as stated, fails: with the counter at 32, opening the name
    ["a0"], which is in use, without the exclusive flag fails with
    [ENFILE]. *)
Lemma sem_open_full_existing_counterexample :
  run_calls create_all init_state = Some full_table /\
  find_by_name_nsem "a0" full_table = Some 0%nat /\
  Z.land 0 O_EXCL = 0 /\
  sem_open "a0" 0 0 full_table = Some (SEM_FAILED, set_errno ENFILE full_table) /\
  open_fails_with ENFILE (sem_open "a0" 0 0 full_table).
Proof.
  assert (E : sem_open "a0" 0 0 full_table = Some (SEM_FAILED, set_errno ENFILE full_table))
    by (vm_compute; reflexivity).
  split; [vm_compute; reflexivity|].
  split; [vm_compute; reflexivity|].
  split; [vm_compute; reflexivity|].
  split; [exact E|].
  exists (set_errno ENFILE full_table). split; [exact E|reflexivity].
Qed.

(** C4, amended.  [sem_open] fails with [ENFILE] exactly when the counter
    of used slots equals the capacity, whether or not the name is in use;
    when the counter differs from the capacity, opening a name that is in
    use without the exclusive flag succeeds with the address of its
    semaphore. *)
Theorem sem_open_capacity nm oflag value st :
  (sem_named_n st = SEM_NAMED_N_LIMIT <->
   open_fails_with ENFILE (sem_open nm oflag value st)) /\
  (forall i, sem_named_n st <> SEM_NAMED_N_LIMIT ->
             find_by_name_nsem nm st = Some i ->
             Z.land oflag O_EXCL = 0 ->
             sem_open nm oflag value st = Some (slot_sem i, st)).
Proof.
  split; [split|].
  - intros H. rewrite (sem_open_full _ _ _ _ H).
    exists (set_errno ENFILE st). now split.
  - intros [st' [E Herr]]. unfold sem_open in E.
    destruct (sem_named_n st =? SEM_NAMED_N_LIMIT) eqn:Hn; [now apply Z.eqb_eq|].
    exfalso.
    destruct (find_by_name_nsem nm st) as [i|].
    + destruct (negb (Z.land oflag O_EXCL =? 0));
        inversion E; subst st'; simpl in Herr; discriminate.
    + destruct (Z.land oflag O_CREAT =? 0).
      * inversion E; subst st'; simpl in Herr; discriminate.
      * destruct (alloc_nsem nm st) as [[j|] st1]; discriminate.
  - intros i. apply sem_open_attach.
Qed.

Lemma sem_open_capacity_witness :
  (sem_named_n full_table = SEM_NAMED_N_LIMIT /\
   open_fails_with ENFILE (sem_open "a7" 0 0 full_table)) /\
  (sem_named_n opened_s <> SEM_NAMED_N_LIMIT /\
   find_by_name_nsem "s" opened_s = Some 0%nat /\
   Z.land O_CREAT O_EXCL = 0 /\
   sem_open "s" O_CREAT 5 opened_s = Some (slot_sem 0, opened_s)).
Proof.
  assert (Hfull : sem_named_n full_table = SEM_NAMED_N_LIMIT) by (vm_compute; reflexivity).
  assert (Hn : sem_named_n opened_s <> SEM_NAMED_N_LIMIT) by (vm_compute; discriminate).
  assert (Hf : find_by_name_nsem "s" opened_s = Some 0%nat) by (vm_compute; reflexivity).
  assert (Hx : Z.land O_CREAT O_EXCL = 0) by (vm_compute; reflexivity).
  split.
  - split; [exact Hfull|].
    exact (proj1 (proj1 (sem_open_capacity "a7" 0 0 full_table)) Hfull).
  - split; [exact Hn|]. split; [exact Hf|]. split; [exact Hx|].
    exact (proj2 (sem_open_capacity "s" O_CREAT 5 opened_s) 0%nat Hn Hf Hx).
Defined.

(** ** Exclusive creation *)

(** C8, as stated, fails: with the counter at 32, opening the name
    ["a0"], which is in use, with [O_CREAT | O_EXCL] fails with [ENFILE],
    not with [EEXIST]. *)
Lemma sem_open_excl_full_counterexample :
  run_calls create_all init_state = Some full_table /\
  find_by_name_nsem "a0" full_table = Some 0%nat /\
  Z.land (Z.lor O_CREAT O_EXCL) O_EXCL <> 0 /\
  sem_open "a0" (Z.lor O_CREAT O_EXCL) 0 full_table =
    Some (SEM_FAILED, set_errno ENFILE full_table) /\
  ~ open_fails_with EEXIST (sem_open "a0" (Z.lor O_CREAT O_EXCL) 0 full_table).
Proof.
  assert (E' : sem_open "a0" (Z.lor O_CREAT O_EXCL) 0 full_table =
               Some (SEM_FAILED, set_errno ENFILE full_table))
    by (vm_compute; reflexivity).
  split; [vm_compute; reflexivity|].
  split; [vm_compute; reflexivity|].
  split; [vm_compute; discriminate|].
  split; [exact E'|].
  intros [st' [E Herr]].
  rewrite E' in E. injection E as <-.
  change (ENFILE = EEXIST) in Herr. discriminate Herr.
Qed.

(** C8, amended.  [sem_open] of a name that is in use with the exclusive
    flag set fails and leaves the table and the counter as they were,
    whatever the create flag is: with [EEXIST] when the counter of used
    slots differs from the capacity, with [ENFILE] when it equals it. *)
Theorem sem_open_excl_existing nm oflag value st i :
  find_by_name_nsem nm st = Some i ->
  Z.land oflag O_EXCL <> 0 ->
  exists st',
    sem_open nm oflag value st = Some (SEM_FAILED, st') /\
    errno st' = (if sem_named_n st =? SEM_NAMED_N_LIMIT then ENFILE else EEXIST) /\
    sem_named st' = sem_named st /\
    sem_named_n st' = sem_named_n st.
Proof.
  intros Hf Hx. unfold sem_open.
  destruct (sem_named_n st =? SEM_NAMED_N_LIMIT).
  - exists (set_errno ENFILE st). repeat split.
  - rewrite Hf. apply Z.eqb_neq in Hx. rewrite Hx. simpl.
    exists (set_errno EEXIST st). repeat split.
Qed.

Lemma sem_open_excl_existing_witness :
  find_by_name_nsem "s" opened_s = Some 0%nat /\
  Z.land O_EXCL O_EXCL <> 0 /\
  exists st',
    sem_open "s" O_EXCL 0 opened_s = Some (SEM_FAILED, st') /\
    errno st' = (if sem_named_n opened_s =? SEM_NAMED_N_LIMIT then ENFILE else EEXIST) /\
    sem_named st' = sem_named opened_s /\
    sem_named_n st' = sem_named_n opened_s.
Proof.
  assert (Hx : Z.land O_EXCL O_EXCL <> 0) by (vm_compute; discriminate).
  assert (Hf : find_by_name_nsem "s" opened_s = Some 0%nat) by (vm_compute; reflexivity).
  split; [exact Hf|]. split; [exact Hx|].
  exact (sem_open_excl_existing "s" O_EXCL 0 opened_s 0%nat Hf Hx).
Defined.

(** ** Failed calls *)

(** C7.  A call of [sem_open], [sem_close] or [sem_unlink] that fails
    leaves every slot of the table and the counter of used slots as they
    were. *)
Theorem failed_call_leaves_table c st r st' :
  run_call c st = Some (r, st') -> failed r = true ->
  sem_named st' = sem_named st /\ sem_named_n st' = sem_named_n st.
Proof.
  destruct c as [nm oflag value|p|nm]; simpl.
  - unfold sem_open.
    destruct (sem_named_n st =? SEM_NAMED_N_LIMIT).
    { intros E _. inversion E; subst. now split. }
    destruct (find_by_name_nsem nm st) as [i|].
    { destruct (negb (Z.land oflag O_EXCL =? 0)); intros E Hfail;
        inversion E; subst; [now split|discriminate]. }
    destruct (Z.land oflag O_CREAT =? 0).
    { intros E _. inversion E; subst. now split. }
    destruct (alloc_nsem nm st) as [[j|] st1]; intros E Hfail;
      inversion E; subst; discriminate.
  - unfold sem_close. destruct (find_by_addr_nsem p st) as [i|].
    + destruct (dereference_nsem i st) as [nleft st1].
      destruct (nleft =? 0); [destruct (slot_to_free i st1)|];
        intros E Hfail; inversion E; subst; discriminate.
    + intros E _. inversion E; subst. now split.
  - unfold sem_unlink. destruct (find_by_name_nsem nm st) as [i|].
    + destruct (dereference_nsem i (mark_to_free i st)) as [nleft st2].
      destruct (nleft =? 0); intros E Hfail; inversion E; subst; discriminate.
    + intros E _. inversion E; subst. now split.
Qed.

Lemma failed_call_leaves_table_witness :
  run_call (Unlink "t") opened_s = Some (int_result (-1), set_errno ENOENT opened_s) /\
  failed (int_result (-1)) = true /\
  sem_named (set_errno ENOENT opened_s) = sem_named opened_s /\
  sem_named_n (set_errno ENOENT opened_s) = sem_named_n opened_s.
Proof.
  assert (E : run_call (Unlink "t") opened_s =
              Some (int_result (-1), set_errno ENOENT opened_s))
    by (vm_compute; reflexivity).
  split; [exact E|]. split; [reflexivity|].
  exact (failed_call_leaves_table (Unlink "t") opened_s (int_result (-1))
           (set_errno ENOENT opened_s) E eq_refl).
Defined.

(** ** Timed wait *)

(** C5 (the code departs from the claim).  A deadline whose [tv_nsec] is
    exactly 1000000000 passes the validation: [k_sem_take] is called
    once, here with a timeout of 1000 ms.  A [tv_nsec] of 2000000000 is
    refused with [EINVAL] and [k_sem_take] is not called. *)
Theorem sem_timedwait_accepts_full_second take t2ms s sec cycles e :
  length (tw_takes (sem_timedwait take t2ms s
                      {| tv_sec := sec; tv_nsec := 1000000000 |} cycles e)) = 1%nat /\
  sem_timedwait take_nowait ticks_100hz sem0
    {| tv_sec := 0; tv_nsec := 1000000000 |} 0 0 =
    {| tw_ret := -1; tw_errno := ETIMEDOUT; tw_sem := sem0; tw_takes := [1000] |} /\
  sem_timedwait take t2ms s {| tv_sec := sec; tv_nsec := 2000000000 |} cycles e =
    {| tw_ret := -1; tw_errno := EINVAL; tw_sem := s; tw_takes := [] |}.
Proof.
  split; [|split].
  - unfold sem_timedwait. simpl.
    destruct (take s _) as [rc s']. now destruct (rc =? - EBUSY).
  - vm_compute. reflexivity.
  - apply sem_timedwait_refused. simpl. lia.
Qed.

(** C6, as stated, fails: the timeout is cut to 32 bits.  A deadline
    2147483999 ms ahead of a clock at 0 gives the timeout -2147483297,
    and a deadline 3000000000 ms in the past gives the positive timeout
    1294967296. *)
Lemma sem_timedwait_relative_wait_counterexample :
  (0 <= 999000000 < 1000000000 /\
   now_ms ticks_100hz 0 = 0 /\
   2147483 * 1000 + 999000000 / 1000000 - now_ms ticks_100hz 0 = 2147483999 /\
   tw_takes (sem_timedwait take_nowait ticks_100hz sem0
               {| tv_sec := 2147483; tv_nsec := 999000000 |} 0 0) = [-2147483297]) /\
  (now_ms ticks_100hz 300000000 = 3000000000 /\
   0 * 1000 + 0 / 1000000 - now_ms ticks_100hz 300000000 = -3000000000 /\
   tw_takes (sem_timedwait take_nowait ticks_100hz sem0
               {| tv_sec := 0; tv_nsec := 0 |} 300000000 0) = [1294967296]).
Proof.
  split.
  - split; [lia|]. repeat split; vm_compute; reflexivity.
  - repeat split; vm_compute; reflexivity.
Qed.

(** C6, amended.  For a deadline that passes the validation and whose
    [tv_sec * 1000] fits in 32 bits, the timeout passed to [k_sem_take]
    is [tv_sec * 1000 + tv_nsec / 1000000 - now_ms] cut to a signed
    32-bit value; when that difference [D] fits in 32 bits the timeout is
    [D] itself, positive for a deadline in the future and non-positive
    for one in the past. *)
Theorem sem_timedwait_relative_wait take t2ms s ts cycles e :
  0 <= tv_nsec ts <= 1000000000 ->
  in_s32 (tv_sec ts * 1000) ->
  tw_takes (sem_timedwait take t2ms s ts cycles e) =
    [wrap_s32 (tv_sec ts * 1000 + tv_nsec ts / 1000000 - now_ms t2ms cycles)] /\
  (forall D, in_s32 D ->
             tv_sec ts * 1000 + tv_nsec ts / 1000000 = now_ms t2ms cycles + D ->
             tw_takes (sem_timedwait take t2ms s ts cycles e) = [D]).
Proof.
  intros Hns Hsec.
  pose proof (sem_timedwait_timeout take t2ms s ts cycles e Hns Hsec) as H.
  split; [exact H|].
  intros D HD Heq. rewrite H. f_equal.
  replace (tv_sec ts * 1000 + tv_nsec ts / 1000000 - now_ms t2ms cycles) with D by lia.
  now apply wrap_s32_small.
Qed.

Lemma sem_timedwait_relative_wait_witness :
  (0 <= 250000000 <= 1000000000) /\
  in_s32 (5 * 1000) /\
  tw_takes (sem_timedwait take_nowait ticks_100hz sem0
              {| tv_sec := 5; tv_nsec := 250000000 |} 100 0) =
    [wrap_s32 (5 * 1000 + 250000000 / 1000000 - now_ms ticks_100hz 100)] /\
  (forall D, in_s32 D ->
             5 * 1000 + 250000000 / 1000000 = now_ms ticks_100hz 100 + D ->
             tw_takes (sem_timedwait take_nowait ticks_100hz sem0
                         {| tv_sec := 5; tv_nsec := 250000000 |} 100 0) = [D]).
Proof.
  assert (Hns : 0 <= 250000000 <= 1000000000) by lia.
  assert (Hsec : in_s32 (5 * 1000)) by (unfold in_s32; lia).
  split; [exact Hns|]. split; [exact Hsec|].
  exact (sem_timedwait_relative_wait take_nowait ticks_100hz sem0
           {| tv_sec := 5; tv_nsec := 250000000 |} 100 0 Hns Hsec).
Defined.

(** ** [strncmp] and the compared part of a name *)

Lemma N_of_ascii_zero c : Z.of_N (N_of_ascii c) = 0 <-> c = zero.
Proof.
  split.
  - intros H. rewrite <- (ascii_N_embedding c).
    replace (N_of_ascii c) with 0%N by lia. reflexivity.
  - intros ->. reflexivity.
Qed.

Lemma N_of_ascii_diff c1 c2 :
  Z.of_N (N_of_ascii c1) - Z.of_N (N_of_ascii c2) = 0 <-> c1 = c2.
Proof.
  split.
  - intros H. rewrite <- (ascii_N_embedding c1), <- (ascii_N_embedding c2).
    f_equal. lia.
  - intros ->. lia.
Qed.

Lemma strncmp_zero_iff a b n : strncmp a b n = 0 <-> cstr a n = cstr b n.
Proof.
  revert a b. induction n as [|n IH]; intros a b; [destruct a; split; intros _; reflexivity|].
  destruct a as [|c1 r1], b as [|c2 r2]; simpl.
  - split; intros _; reflexivity.
  - destruct (Ascii.eqb_spec c2 zero) as [->|Hz].
    + split; intros _; reflexivity.
    + split; [|discriminate]. intros H.
      exfalso. apply Hz, N_of_ascii_zero. lia.
  - destruct (Ascii.eqb_spec c1 zero) as [->|Hz].
    + split; intros _; reflexivity.
    + split; [|discriminate]. intros H.
      exfalso. apply Hz, N_of_ascii_zero. lia.
  - destruct (Ascii.eqb_spec c1 c2) as [->|Hne].
    + destruct (Ascii.eqb_spec c2 zero) as [->|Hz]; [split; intros _; reflexivity|].
      rewrite IH. split; [intros ->; reflexivity|intros H; now inversion H].
    + split.
      * intros H. exfalso. apply Hne. now apply N_of_ascii_diff.
      * destruct (Ascii.eqb_spec c1 zero) as [->|Hz1],
                 (Ascii.eqb_spec c2 zero) as [->|Hz2];
          intros H; try discriminate; try congruence.
Qed.




(** ** More on the search loop *)

Lemma scan_Some_first hit its i j :
  scan hit its i = Some j ->
  forall k it, (k < j - i)%nat -> its !! k = Some it -> hit (i + k)%nat it = false.
Proof.
  revert i. induction its as [|it0 rest IH]; intros i H k it Hk Hl; [discriminate|].
  simpl in H. destruct (hit i it0) eqn:Hhit.
  - inversion H; subst j. lia.
  - destruct k as [|k]; simpl in Hl.
    + inversion Hl; subst. now rewrite Nat.add_0_r.
    + replace (i + S k)%nat with (S i + k)%nat by lia.
      apply (IH (S i) H k it); [|exact Hl].
      apply scan_Some in H. lia.
Qed.



(** A search whose test gives the same answer on two tables gives the
    same result. *)
Lemma scan_ext hit hit' its its' i :
  length its = length its' ->
  (forall k it it', its !! k = Some it -> its' !! k = Some it' ->
                    hit (i + k)%nat it = hit' (i + k)%nat it') ->
  scan hit its i = scan hit' its' i.
Proof.
  revert its' i. induction its as [|it rest IH]; intros [|it' rest'] i Hlen H;
    try discriminate; [reflexivity|].
  simpl. pose proof (H 0%nat it it' eq_refl eq_refl) as H0.
  rewrite Nat.add_0_r in H0. rewrite H0.
  destruct (hit' i it'); [reflexivity|].
  apply IH; [simpl in Hlen; lia|].
  intros k x x' Hx Hx'. replace (S i + k)%nat with (i + S k)%nat by lia.
  now apply H.
Qed.

(** ** What a successful creation writes *)


(** The slot [alloc_nsem] takes: not in use, with every slot before it
    in use. *)
Lemma first_free_slot tbl k :
  scan (fun _ it => negb (in_use it)) tbl 0 = Some k ->
  (exists it0, tbl !! k = Some it0 /\ in_use it0 = false) /\
  (forall j it, (j < k)%nat -> tbl !! j = Some it -> in_use it = true).
Proof.
  intros H. split.
  - destruct (scan_Some _ _ _ _ H) as [_ [it [Hl Hh]]].
    rewrite Nat.sub_0_r in Hl. exists it. split; [exact Hl|].
    now apply negb_true_iff.
  - intros j it Hj Hl.
    pose proof (scan_Some_first _ _ _ _ H j it) as Hb.
    rewrite Nat.sub_0_r in Hb. specialize (Hb Hj Hl). simpl in Hb.
    now apply negb_false_iff.
Qed.

(** ** Tables that only lose slots *)












(** ** Reference counts stay [u32_t] values *)

Lemma refs_in_range_alter f i tbl :
  (forall it, 0 <= refs it < 2 ^ 32 -> 0 <= refs (f it) < 2 ^ 32) ->
  refs_in_range tbl -> refs_in_range (alter f i tbl).
Proof.
  intros Hf H j it Hl. rewrite list_lookup_alter in Hl.
  destruct (decide (i = j)) as [->|Hne]; [|eauto].
  destruct (tbl !! j) as [it0|] eqn:E; simpl in Hl; [|discriminate].
  inversion Hl; subst. eauto.
Qed.

Lemma wrap_u32_range z : 0 <= wrap_u32 z < 2 ^ 32.
Proof. unfold wrap_u32. apply Z.mod_pos_bound. lia. Qed.

Lemma dereference_nsem_refs i st :
  refs_in_range (sem_named st) -> refs_in_range (sem_named (snd (dereference_nsem i st))).
Proof.
  unfold dereference_nsem. intros H. destruct (sem_named st !! i); [|exact H].
  simpl. apply refs_in_range_alter; [|exact H].
  intros it _. simpl. apply wrap_u32_range.
Qed.

Lemma free_nsem_refs i st :
  refs_in_range (sem_named st) -> refs_in_range (sem_named (free_nsem i st)).
Proof.
  unfold free_nsem. intros H. destruct (sem_named st !! i); [|exact H].
  simpl. apply refs_in_range_alter; auto.
Qed.

Lemma run_call_refs c st r st' :
  refs_in_range (sem_named st) -> run_call c st = Some (r, st') ->
  refs_in_range (sem_named st').
Proof.
  intros H. destruct c as [nm oflag value|p|nm]; simpl.
  - unfold sem_open, alloc_nsem.
    destruct (sem_named_n st =? SEM_NAMED_N_LIMIT).
    { intros E; inversion E; subst; exact H. }
    destruct (find_by_name_nsem nm st).
    { destruct (negb (Z.land oflag O_EXCL =? 0)); intros E; inversion E; subst; exact H. }
    destruct (Z.land oflag O_CREAT =? 0).
    { intros E; inversion E; subst; exact H. }
    destruct (scan (fun _ it => negb (in_use it)) (sem_named st) 0); [|discriminate].
    intros E; inversion E; subst. unfold init_slot_sem. simpl.
    apply refs_in_range_alter; [auto|].
    apply refs_in_range_alter; [|exact H]. intros it _. simpl. lia.
  - unfold sem_close. destruct (find_by_addr_nsem p st) as [i|].
    + pose proof (dereference_nsem_refs i st H) as H1.
      destruct (dereference_nsem i st) as [nleft st1]. simpl in H1.
      destruct (nleft =? 0); [destruct (slot_to_free i st1)|];
        intros E; inversion E; subst; auto using free_nsem_refs.
    + intros E; inversion E; subst; exact H.
  - unfold sem_unlink. destruct (find_by_name_nsem nm st) as [i|].
    + assert (H0 : refs_in_range (sem_named (mark_to_free i st))).
      { unfold mark_to_free. simpl. apply refs_in_range_alter; auto. }
      pose proof (dereference_nsem_refs i _ H0) as H1.
      destruct (dereference_nsem i (mark_to_free i st)) as [nleft st2]. simpl in H1.
      destruct (nleft =? 0); intros E; inversion E; subst; auto using free_nsem_refs.
    + intros E; inversion E; subst; exact H.
Qed.


(** Induction over the calls that lead to a reachable state. *)
Lemma reachable_invariant (P : state -> Prop) :
  P init_state ->
  (forall c st r st', P st -> run_call c st = Some (r, st') -> P st') ->
  forall st, reachable st -> P st.
Proof.
  intros H0 Hstep st [cs E]. revert E. generalize init_state, H0. clear H0.
  induction cs as [|c cs IH]; intros st0 H0 E; simpl in E.
  - now inversion E; subst.
  - destruct (run_call c st0) as [[r st1]|] eqn:E1; [|discriminate].
    exact (IH st1 (Hstep c st0 r st1 H0 E1) E).
Qed.



Lemma init_refs_in_range : refs_in_range (sem_named init_state).
Proof.
  intros i it Hl. unfold init_state in Hl. cbn [sem_named] in Hl.
    apply lookup_replicate in Hl. destruct Hl as [-> _].
  simpl. lia.
Qed.



(** [sem_close] returns 0 on the address of a slot in use. *)
Lemma sem_close_live st i it :
  sem_named st !! i = Some it -> in_use it = true ->
  fst (sem_close (slot_sem i) st) = 0.
Proof.
  intros Hl Hu. unfold sem_close. rewrite (find_by_addr_live st i it Hl Hu).
  destruct (dereference_nsem i st) as [nleft st1].
  destruct (nleft =? 0); [destruct (slot_to_free i st1)|]; reflexivity.
Qed.

(** The test [!dereference_nsem(nsem)]: the decremented count is 0
    exactly when the count was 1. *)
Lemma dereference_zero r :
  0 <= r < 2 ^ 32 -> (wrap_s32 (wrap_u32 (r - 1)) =? 0) = (r =? 1).
Proof.
  intros Hr. unfold wrap_s32, wrap_u32.
  destruct (Z.eq_dec r 0) as [->|Hr0]; [reflexivity|].
  rewrite (Z.mod_small (r - 1)) by lia.
  destruct (Z.eq_dec r 1) as [->|Hr1]; [reflexivity|].
  rewrite (proj2 (Z.eqb_neq r 1) Hr1). apply Z.eqb_neq.
  destruct (Z_lt_le_dec (r - 1) (2 ^ 31)).
  - rewrite Z.mod_small by lia. lia.
  - replace (r - 1 + 2 ^ 31) with (r - 1 - 2 ^ 31 + 1 * 2 ^ 32) by lia.
    rewrite Z.mod_add by lia. rewrite Z.mod_small by lia. lia.
Qed.

Lemma wrap_s64_small z : - 2 ^ 63 <= z < 2 ^ 63 -> wrap_s64 z = z.
Proof. unfold wrap_s64. intros H. rewrite Z.mod_small; lia. Qed.

(** A search that looks only at what an update leaves alone gives the
    same result after the update. *)
Lemma scan_alter hit f i tbl n :
  (forall k it, hit k (f it) = hit k it) ->
  scan hit (alter f i tbl) n = scan hit tbl n.
Proof.
  intros Hf. apply scan_ext; [apply length_alter|].
  intros k it it' Hl Hl'. rewrite list_lookup_alter in Hl.
  destruct (decide (i = k)) as [->|Hne].
  - rewrite Hl' in Hl. simpl in Hl. inversion Hl; subst. apply Hf.
  - congruence.
Qed.

(** What [sem_unlink] does to the slot it finds. *)
Lemma sem_unlink_found nm st i it :
  find_by_name_nsem nm st = Some i ->
  sem_named st !! i = Some it -> 0 <= refs it < 2 ^ 32 ->
  exists st',
    sem_unlink nm st = (0, st') /\
    sem_named st' !! i =
      Some {| sem := sem it; name := name it; refs := wrap_u32 (refs it - 1);
              to_free := true; in_use := negb (refs it =? 1) |} /\
    (forall j, j <> i -> sem_named st' !! j = sem_named st !! j) /\
    sem_named_n st' = sem_named_n st /\
    errno st' = (if (refs it =? 1) && negb (sem_count (sem it) =? 0)
                 then EBUSY else errno st).
Proof.
  intros Hfind Hl Hr.
  assert (Hu : in_use it = true).
  { destruct (find_by_name_Some nm st i Hfind) as [it' [Hl' [Hu' _]]]. congruence. }
  unfold sem_unlink. rewrite Hfind.
  unfold dereference_nsem, mark_to_free. cbn [sem_named set_table].
  rewrite list_lookup_alter_eq, Hl. cbn [fmap option_fmap option_map refs].
  cbv beta iota zeta. rewrite (dereference_zero _ Hr).
  destruct (refs it =? 1) eqn:H1; cbn [andb negb].
  - unfold free_nsem. cbn [sem_named set_table].
    rewrite !list_lookup_alter_eq, Hl. cbn [fmap option_fmap option_map].
    eexists. split; [reflexivity|]. cbn [sem_named sem_named_n errno set_table].
    split; [|split; [|split]].
    + rewrite !list_lookup_alter_eq, Hl. reflexivity.
    + intros j Hj. now rewrite !list_lookup_alter_ne by congruence.
    + reflexivity.
    + unfold sem_destroy, k_sem_count_get. cbn [sem].
      now destruct (sem_count (sem it) =? 0).
  - eexists. split; [reflexivity|]. cbn [sem_named sem_named_n errno set_table].
    split; [|split; [|split; reflexivity]].
    + rewrite !list_lookup_alter_eq, Hl. simpl. now rewrite Hu.
    + intros j Hj. now rewrite !list_lookup_alter_ne by congruence.
Qed.


Lemma state_after_reachable cs : reachable (state_after cs).
Proof.
  destruct (run_calls_defined cs init_state init_state_inv) as [st E].
  exists cs. unfold state_after. rewrite E. reflexivity.
Qed.

(** ** Invariants of the reachable states *)

(** X1.  In every state reached from start-up the table has its 32
    slots, every reference count is a [u32_t] value, and the counter
    [sem_named_n] is at least the number of slots in use and at most 32. *)
Theorem reachable_table_bounds st :
  reachable st ->
  length (sem_named st) = 32%nat /\
  (forall i it, sem_named st !! i = Some it -> 0 <= refs it < 2 ^ 32) /\
  Z.of_nat (live_count (sem_named st)) <= sem_named_n st <= 32.
Proof.
  intros Hr. destruct (reachable_inv st Hr) as [Hlen Hn].
  split; [exact Hlen|]. split; [|exact Hn].
  clear Hlen Hn. revert st Hr. apply (reachable_invariant (fun st => refs_in_range (sem_named st))).
  - exact init_refs_in_range.
  - intros c st r st' H E. exact (run_call_refs c st r st' H E).
Qed.

Lemma reachable_table_bounds_witness :
  reachable full_then_released /\
  length (sem_named full_then_released) = 32%nat /\
  (forall i it, sem_named full_then_released !! i = Some it -> 0 <= refs it < 2 ^ 32) /\
  Z.of_nat (live_count (sem_named full_then_released)) <= sem_named_n full_then_released <= 32.
Proof.
  split; [apply state_after_reachable|].
  apply (reachable_table_bounds full_then_released). apply state_after_reachable.
Defined.







(** ** Creation *)




(** ** Error codes *)



(** X7.  [sem_close] succeeds exactly on the address of the semaphore of
    a slot in use.  On any other pointer (null, a semaphore outside the
    table, a slot not in use) it returns -1 and only sets [errno] to
    [EINVAL]. *)
Theorem sem_close_accepts_live_handles p st :
  ((exists i it, p = slot_sem i /\ sem_named st !! i = Some it /\ in_use it = true) ->
   fst (sem_close p st) = 0) /\
  (~ (exists i it, p = slot_sem i /\ sem_named st !! i = Some it /\ in_use it = true) ->
   sem_close p st = (-1, set_errno EINVAL st)).
Proof.
  split.
  - intros [i [it [-> [Hl Hu]]]]. exact (sem_close_live st i it Hl Hu).
  - intros Hno. unfold sem_close.
    destruct (find_by_addr_nsem p st) as [i|] eqn:E; [|reflexivity].
    exfalso. apply Hno. apply find_by_addr_Some in E.
    destruct E as [-> [it [Hl Hu]]]. eauto.
Qed.

Lemma sem_close_accepts_live_handles_witness :
  fst (sem_close (slot_sem 0) opened_s) = 0 /\
  sem_close (other_sem 4096) opened_s = (-1, set_errno EINVAL opened_s).
Proof.
  split.
  - apply (proj1 (sem_close_accepts_live_handles (slot_sem 0) opened_s)).
    exists 0%nat, (slot 0 opened_s).
    split; [reflexivity|]. split; vm_compute; reflexivity.
  - apply (proj2 (sem_close_accepts_live_handles (other_sem 4096) opened_s)).
    intros [i [it [H _]]]. discriminate H.
Defined.

(** X8.  A pointer that [sem_open] returns with success is the address
    of the semaphore of a slot in use, so [sem_close] on it right after
    succeeds. *)
Theorem sem_open_handle_closes nm oflag value st p st' :
  sem_open nm oflag value st = Some (p, st') -> p <> SEM_FAILED ->
  (exists i it, p = slot_sem i /\ sem_named st' !! i = Some it /\ in_use it = true) /\
  fst (sem_close p st') = 0.
Proof.
  intros E Hp.
  assert (H : exists i it, p = slot_sem i /\ sem_named st' !! i = Some it /\ in_use it = true).
  { unfold sem_open, alloc_nsem in E.
    destruct (sem_named_n st =? SEM_NAMED_N_LIMIT); [inversion E; subst; contradiction|].
    destruct (find_by_name_nsem nm st) as [i|] eqn:Hf.
    - destruct (negb (Z.land oflag O_EXCL =? 0)); inversion E; subst; [contradiction|].
      destruct (find_by_name_Some nm st' i Hf) as [it [Hl [Hu _]]]. eauto.
    - destruct (Z.land oflag O_CREAT =? 0); [inversion E; subst; contradiction|].
      destruct (scan (fun _ it => negb (in_use it)) (sem_named st) 0) as [k|] eqn:Hscan;
        [|discriminate].
      inversion E; subst. clear E.
      destruct (first_free_slot _ _ Hscan) as [[it0 [Hl0 _]] _].
      eexists k, _. split; [reflexivity|]. unfold init_slot_sem. simpl.
      rewrite !list_lookup_alter_eq, Hl0. simpl. split; reflexivity. }
  split; [exact H|].
  destruct H as [i [it [-> [Hl Hu]]]]. exact (sem_close_live st' i it Hl Hu).
Qed.

Lemma sem_open_handle_closes_witness :
  sem_open "s" 0 0 opened_s = Some (slot_sem 0, opened_s) /\
  slot_sem 0 <> SEM_FAILED /\
  (exists i it, slot_sem 0 = slot_sem i /\ sem_named opened_s !! i = Some it /\
                in_use it = true) /\
  fst (sem_close (slot_sem 0) opened_s) = 0.
Proof.
  assert (E : sem_open "s" 0 0 opened_s = Some (slot_sem 0, opened_s))
    by (vm_compute; reflexivity).
  assert (Hp : slot_sem 0 <> SEM_FAILED) by discriminate.
  split; [exact E|]. split; [exact Hp|].
  exact (sem_open_handle_closes "s" 0 0 opened_s (slot_sem 0) opened_s E Hp).
Defined.

(** ** Closing and unlinking *)

(** X9.  [sem_close] on the address of a slot in use returns 0,
    decrements the slot's reference count modulo 2^32 and touches no
    other slot and not the counter.  The slot is torn down exactly when
    the count was 1 and [to_free] is set; the teardown sets [errno] to
    [EBUSY] when the semaphore's count is not 0, although the call
    returns 0. *)
Theorem sem_close_effect st i it :
  sem_named st !! i = Some it -> in_use it = true -> 0 <= refs it < 2 ^ 32 ->
  exists st',
    sem_close (slot_sem i) st = (0, st') /\
    sem_named st' !! i =
      Some {| sem := sem it; name := name it; refs := wrap_u32 (refs it - 1);
              to_free := to_free it;
              in_use := negb ((refs it =? 1) && to_free it) |} /\
    (forall j, j <> i -> sem_named st' !! j = sem_named st !! j) /\
    sem_named_n st' = sem_named_n st /\
    errno st' = (if (refs it =? 1) && to_free it && negb (sem_count (sem it) =? 0)
                 then EBUSY else errno st).
Proof.
  intros Hl Hu Hr. unfold sem_close. rewrite (find_by_addr_live st i it Hl Hu).
  unfold dereference_nsem. rewrite Hl. cbv beta iota zeta.
  rewrite (dereference_zero _ Hr).
  destruct (refs it =? 1) eqn:H1; cbn [andb].
  - unfold slot_to_free. cbn [sem_named set_table].
    rewrite list_lookup_alter_eq, Hl. cbn [fmap option_fmap option_map to_free].
    destruct (to_free it) eqn:Hf.
    + unfold free_nsem. cbn [sem_named set_table].
      rewrite list_lookup_alter_eq, Hl. cbn [fmap option_fmap option_map].
      eexists. split; [reflexivity|]. cbn [sem_named sem_named_n errno set_table].
      split; [|split; [|split]].
      * rewrite !list_lookup_alter_eq, Hl. simpl. now rewrite Hf.
      * intros j Hj. now rewrite !list_lookup_alter_ne by congruence.
      * reflexivity.
      * unfold sem_destroy, k_sem_count_get. cbn [sem].
        now destruct (sem_count (sem it) =? 0).
    + eexists. split; [reflexivity|]. cbn [sem_named sem_named_n errno set_table].
      split; [|split; [|split; reflexivity]].
      * rewrite list_lookup_alter_eq, Hl. simpl. now rewrite Hf, Hu.
      * intros j Hj. now rewrite list_lookup_alter_ne by congruence.
  - eexists. split; [reflexivity|]. cbn [sem_named sem_named_n errno set_table].
    split; [|split; [|split; reflexivity]].
    + rewrite list_lookup_alter_eq, Hl. simpl. now rewrite Hu.
    + intros j Hj. now rewrite list_lookup_alter_ne by congruence.
Qed.

Lemma sem_close_effect_witness :
  sem_named opened_s !! 0%nat = Some (slot 0 opened_s) /\
  in_use (slot 0 opened_s) = true /\
  0 <= refs (slot 0 opened_s) < 2 ^ 32 /\
  exists st',
    sem_close (slot_sem 0) opened_s = (0, st') /\
    sem_named st' !! 0%nat =
      Some {| sem := sem (slot 0 opened_s); name := name (slot 0 opened_s);
              refs := wrap_u32 (refs (slot 0 opened_s) - 1);
              to_free := to_free (slot 0 opened_s);
              in_use := negb ((refs (slot 0 opened_s) =? 1) && to_free (slot 0 opened_s)) |} /\
    (forall j, j <> 0%nat -> sem_named st' !! j = sem_named opened_s !! j) /\
    sem_named_n st' = sem_named_n opened_s /\
    errno st' = (if (refs (slot 0 opened_s) =? 1) && to_free (slot 0 opened_s)
                      && negb (sem_count (sem (slot 0 opened_s)) =? 0)
                 then EBUSY else errno opened_s).
Proof.
  assert (Hl : sem_named opened_s !! 0%nat = Some (slot 0 opened_s))
    by (vm_compute; reflexivity).
  assert (Hu : in_use (slot 0 opened_s) = true) by (vm_compute; reflexivity).
  assert (Hr : 0 <= refs (slot 0 opened_s) < 2 ^ 32)
    by (vm_compute; split; [discriminate|reflexivity]).
  split; [exact Hl|]. split; [exact Hu|]. split; [exact Hr|].
  exact (sem_close_effect opened_s 0%nat (slot 0 opened_s) Hl Hu Hr).
Defined.

(** X10.  [sem_close] on a slot in use whose [to_free] flag is not set
    never tears the slot down, whatever its reference count: afterwards
    every lookup by name and by address gives what it gave before. *)
Theorem sem_close_keeps_lookups st i it :
  sem_named st !! i = Some it -> in_use it = true -> to_free it = false ->
  fst (sem_close (slot_sem i) st) = 0 /\
  (forall nm, find_by_name_nsem nm (snd (sem_close (slot_sem i) st)) =
              find_by_name_nsem nm st) /\
  (forall p, find_by_addr_nsem p (snd (sem_close (slot_sem i) st)) =
             find_by_addr_nsem p st).
Proof.
  intros Hl Hu Hf. split; [exact (sem_close_live st i it Hl Hu)|].
  unfold sem_close. rewrite (find_by_addr_live st i it Hl Hu).
  unfold dereference_nsem. rewrite Hl. cbv beta iota zeta.
  assert (Hsf : slot_to_free i
                  (set_table (alter (fun it0 => {| sem := sem it0; name := name it0;
                                                   refs := wrap_u32 (refs it - 1);
                                                   to_free := to_free it0;
                                                   in_use := in_use it0 |})
                                    i (sem_named st)) st) = false).
  { unfold slot_to_free. cbn [sem_named set_table].
    rewrite list_lookup_alter_eq, Hl. exact Hf. }
  rewrite Hsf.
  assert (Hsame : forall b : bool,
             snd (if b
                  then (0, set_table (alter (fun it0 => {| sem := sem it0; name := name it0;
                                                           refs := wrap_u32 (refs it - 1);
                                                           to_free := to_free it0;
                                                           in_use := in_use it0 |})
                                            i (sem_named st)) st)
                  else (0, set_table (alter (fun it0 => {| sem := sem it0; name := name it0;
                                                           refs := wrap_u32 (refs it - 1);
                                                           to_free := to_free it0;
                                                           in_use := in_use it0 |})
                                            i (sem_named st)) st)) =
             set_table (alter (fun it0 => {| sem := sem it0; name := name it0;
                                             refs := wrap_u32 (refs it - 1);
                                             to_free := to_free it0;
                                             in_use := in_use it0 |})
                              i (sem_named st)) st) by (intros []; reflexivity).
  rewrite Hsame. split.
  - intros nm. unfold find_by_name_nsem. cbn [sem_named set_table].
    apply scan_alter. reflexivity.
  - intros p. unfold find_by_addr_nsem. cbn [sem_named set_table].
    apply scan_alter. reflexivity.
Qed.

Lemma sem_close_keeps_lookups_witness :
  sem_named closed_s !! 0%nat = Some (slot 0 closed_s) /\
  in_use (slot 0 closed_s) = true /\
  to_free (slot 0 closed_s) = false /\
  fst (sem_close (slot_sem 0) closed_s) = 0 /\
  (forall nm, find_by_name_nsem nm (snd (sem_close (slot_sem 0) closed_s)) =
              find_by_name_nsem nm closed_s) /\
  (forall p, find_by_addr_nsem p (snd (sem_close (slot_sem 0) closed_s)) =
             find_by_addr_nsem p closed_s).
Proof.
  assert (Hl : sem_named closed_s !! 0%nat = Some (slot 0 closed_s))
    by (vm_compute; reflexivity).
  assert (Hu : in_use (slot 0 closed_s) = true) by (vm_compute; reflexivity).
  assert (Hf : to_free (slot 0 closed_s) = false) by (vm_compute; reflexivity).
  split; [exact Hl|]. split; [exact Hu|]. split; [exact Hf|].
  exact (sem_close_keeps_lookups closed_s 0%nat (slot 0 closed_s) Hl Hu Hf).
Defined.

(** X11.  [sem_unlink] of a name found in slot [i] returns 0, sets
    [to_free], decrements the reference count modulo 2^32 and touches no
    other slot and not the counter.  The slot is torn down exactly when
    the count was 1; the teardown sets [errno] to [EBUSY] when the
    semaphore's count is not 0, although the call returns 0. *)
Theorem sem_unlink_effect nm st i it :
  find_by_name_nsem nm st = Some i ->
  sem_named st !! i = Some it -> 0 <= refs it < 2 ^ 32 ->
  exists st',
    sem_unlink nm st = (0, st') /\
    sem_named st' !! i =
      Some {| sem := sem it; name := name it; refs := wrap_u32 (refs it - 1);
              to_free := true; in_use := negb (refs it =? 1) |} /\
    (forall j, j <> i -> sem_named st' !! j = sem_named st !! j) /\
    sem_named_n st' = sem_named_n st /\
    errno st' = (if (refs it =? 1) && negb (sem_count (sem it) =? 0)
                 then EBUSY else errno st).
Proof. exact (sem_unlink_found nm st i it). Qed.

Lemma sem_unlink_effect_witness :
  find_by_name_nsem "s" opened_s = Some 0%nat /\
  sem_named opened_s !! 0%nat = Some (slot 0 opened_s) /\
  0 <= refs (slot 0 opened_s) < 2 ^ 32 /\
  exists st',
    sem_unlink "s" opened_s = (0, st') /\
    sem_named st' !! 0%nat =
      Some {| sem := sem (slot 0 opened_s); name := name (slot 0 opened_s);
              refs := wrap_u32 (refs (slot 0 opened_s) - 1);
              to_free := true; in_use := negb (refs (slot 0 opened_s) =? 1) |} /\
    (forall j, j <> 0%nat -> sem_named st' !! j = sem_named opened_s !! j) /\
    sem_named_n st' = sem_named_n opened_s /\
    errno st' = (if (refs (slot 0 opened_s) =? 1)
                      && negb (sem_count (sem (slot 0 opened_s)) =? 0)
                 then EBUSY else errno opened_s).
Proof.
  assert (Hfind : find_by_name_nsem "s" opened_s = Some 0%nat) by (vm_compute; reflexivity).
  assert (Hl : sem_named opened_s !! 0%nat = Some (slot 0 opened_s))
    by (vm_compute; reflexivity).
  assert (Hr : 0 <= refs (slot 0 opened_s) < 2 ^ 32)
    by (vm_compute; split; [discriminate|reflexivity]).
  split; [exact Hfind|]. split; [exact Hl|]. split; [exact Hr|].
  exact (sem_unlink_effect "s" opened_s 0%nat (slot 0 opened_s) Hfind Hl Hr).
Defined.



(** X13.  Once the counter of used slots has reached the capacity, no
    sequence of calls brings it down: after any calls, every [sem_open]
    still fails with [ENFILE] and changes nothing but [errno]. *)
Theorem capacity_never_returns cs st st' nm oflag value :
  sem_named_n st = SEM_NAMED_N_LIMIT ->
  run_calls cs st = Some st' ->
  sem_open nm oflag value st' = Some (SEM_FAILED, set_errno ENFILE st').
Proof.
  intros Hfull E. apply sem_open_full. exact (counter_stays_full cs st st' Hfull E).
Qed.

Lemma capacity_never_returns_witness :
  sem_named_n full_table = SEM_NAMED_N_LIMIT /\
  run_calls [Unlink "a0"; Unlink "a1"; Close (slot_sem 2)] full_table =
    Some (state_after (create_all ++ [Unlink "a0"; Unlink "a1"; Close (slot_sem 2)])) /\
  sem_open "a0" O_CREAT 0
    (state_after (create_all ++ [Unlink "a0"; Unlink "a1"; Close (slot_sem 2)])) =
    Some (SEM_FAILED,
          set_errno ENFILE
            (state_after (create_all ++ [Unlink "a0"; Unlink "a1"; Close (slot_sem 2)]))).
Proof.
  assert (Hfull : sem_named_n full_table = SEM_NAMED_N_LIMIT) by (vm_compute; reflexivity).
  assert (E : run_calls [Unlink "a0"; Unlink "a1"; Close (slot_sem 2)] full_table =
              Some (state_after (create_all ++ [Unlink "a0"; Unlink "a1"; Close (slot_sem 2)])))
    by (vm_compute; reflexivity).
  split; [exact Hfull|]. split; [exact E|].
  exact (capacity_never_returns _ full_table _ "a0" O_CREAT 0 Hfull E).
Defined.

(** ** The deadline of a timed wait *)

(** X14.  For a deadline that passes the validation and whose
    [tv_sec * 1000] fits in 32 bits, the deadline in milliseconds is
    computed without overflow and is the deadline rounded down to a whole
    millisecond: less than one millisecond is dropped. *)
Theorem wakeup_ms_rounds_down ts :
  0 <= tv_nsec ts <= 1000000000 -> in_s32 (tv_sec ts * 1000) ->
  wakeup_ms ts = tv_sec ts * 1000 + tv_nsec ts / 1000000 /\
  wakeup_ms ts * 1000000 <= tv_sec ts * 1000000000 + tv_nsec ts
    < wakeup_ms ts * 1000000 + 1000000.
Proof.
  intros Hns Hsec. unfold in_s32 in Hsec.
  assert (Hq : 0 <= tv_nsec ts / 1000000 <= 1000).
  { split; [apply Z.div_pos; lia|]. apply Z.div_le_upper_bound; lia. }
  assert (Hw : wakeup_ms ts = tv_sec ts * 1000 + tv_nsec ts / 1000000).
  { unfold wakeup_ms. rewrite Z.quot_div_nonneg by lia.
    rewrite (wrap_s32_small (tv_sec ts * 1000)) by exact Hsec.
    rewrite (wrap_s32_small (tv_nsec ts / 1000000)) by (unfold in_s32; lia).
    rewrite (wrap_s64_small (tv_sec ts * 1000)) by lia.
    apply wrap_s64_small. lia. }
  split; [exact Hw|]. rewrite Hw.
  pose proof (Z.div_mod (tv_nsec ts) 1000000 ltac:(lia)) as Hdm.
  pose proof (Z.mod_pos_bound (tv_nsec ts) 1000000 ltac:(lia)) as Hm.
  lia.
Qed.

Lemma wakeup_ms_rounds_down_witness :
  0 <= 250999999 <= 1000000000 /\ in_s32 (5 * 1000) /\
  wakeup_ms {| tv_sec := 5; tv_nsec := 250999999 |} = 5 * 1000 + 250999999 / 1000000 /\
  wakeup_ms {| tv_sec := 5; tv_nsec := 250999999 |} * 1000000
    <= 5 * 1000000000 + 250999999
    < wakeup_ms {| tv_sec := 5; tv_nsec := 250999999 |} * 1000000 + 1000000.
Proof.
  assert (Hns : 0 <= 250999999 <= 1000000000) by lia.
  assert (Hsec : in_s32 (5 * 1000)) by (unfold in_s32; lia).
  split; [exact Hns|]. split; [exact Hsec|].
  exact (wakeup_ms_rounds_down {| tv_sec := 5; tv_nsec := 250999999 |} Hns Hsec).
Defined.

(** X15.  [sem_timedwait] calls [k_sem_take] at most once.  An accepted
    deadline gives exactly one call; the result is -1 with [errno]
    [ETIMEDOUT] when [k_sem_take] returned [-EBUSY], and 0 with [errno]
    untouched for every other return value of [k_sem_take]. *)
Theorem sem_timedwait_outcomes take t2ms s ts cycles e :
  0 <= tv_nsec ts <= 1000000000 ->
  exists t,
    tw_takes (sem_timedwait take t2ms s ts cycles e) = [t] /\
    tw_sem (sem_timedwait take t2ms s ts cycles e) = snd (take s t) /\
    (fst (take s t) = - EBUSY ->
     tw_ret (sem_timedwait take t2ms s ts cycles e) = -1 /\
     tw_errno (sem_timedwait take t2ms s ts cycles e) = ETIMEDOUT) /\
    (fst (take s t) <> - EBUSY ->
     tw_ret (sem_timedwait take t2ms s ts cycles e) = 0 /\
     tw_errno (sem_timedwait take t2ms s ts cycles e) = e).
Proof.
  intros Hns. unfold sem_timedwait.
  destruct (tv_nsec ts <? 0) eqn:E1; [apply Z.ltb_lt in E1; lia|].
  destruct (tv_nsec ts >? 1000000000) eqn:E2;
    [rewrite Z.gtb_ltb in E2; apply Z.ltb_lt in E2; lia|].
  cbn [orb]. cbv zeta.
  exists (wrap_s32 (wrap_s64 (wakeup_ms ts - now_ms t2ms cycles))).
  destruct (take s (wrap_s32 (wrap_s64 (wakeup_ms ts - now_ms t2ms cycles))))
    as [rc s'] eqn:Etake.
  cbn [fst snd].
  destruct (rc =? - EBUSY) eqn:Erc; cbn [tw_takes tw_sem tw_ret tw_errno].
  - apply Z.eqb_eq in Erc.
    split; [reflexivity|]. split; [reflexivity|]. split.
    + intros _. split; reflexivity.
    + intros Hne. contradiction.
  - apply Z.eqb_neq in Erc.
    split; [reflexivity|]. split; [reflexivity|]. split.
    + intros Heq. contradiction.
    + intros _. split; reflexivity.
Qed.

Lemma sem_timedwait_outcomes_witness :
  0 <= 250000000 <= 1000000000 /\
  exists t,
    tw_takes (sem_timedwait take_nowait ticks_100hz sem0
                {| tv_sec := 5; tv_nsec := 250000000 |} 100 7) = [t] /\
    tw_sem (sem_timedwait take_nowait ticks_100hz sem0
              {| tv_sec := 5; tv_nsec := 250000000 |} 100 7) = snd (take_nowait sem0 t) /\
    (fst (take_nowait sem0 t) = - EBUSY ->
     tw_ret (sem_timedwait take_nowait ticks_100hz sem0
               {| tv_sec := 5; tv_nsec := 250000000 |} 100 7) = -1 /\
     tw_errno (sem_timedwait take_nowait ticks_100hz sem0
                 {| tv_sec := 5; tv_nsec := 250000000 |} 100 7) = ETIMEDOUT) /\
    (fst (take_nowait sem0 t) <> - EBUSY ->
     tw_ret (sem_timedwait take_nowait ticks_100hz sem0
               {| tv_sec := 5; tv_nsec := 250000000 |} 100 7) = 0 /\
     tw_errno (sem_timedwait take_nowait ticks_100hz sem0
                 {| tv_sec := 5; tv_nsec := 250000000 |} 100 7) = 7).
Proof.
  assert (Hns : 0 <= 250000000 <= 1000000000) by lia.
  split; [exact Hns|].
  exact (sem_timedwait_outcomes take_nowait ticks_100hz sem0
           {| tv_sec := 5; tv_nsec := 250000000 |} 100 7 Hns).
Defined.

(** ** Unnamed semaphores *)

(** X16.  After [sem_init] with a [value] that fits in [unsigned],
    [sem_getvalue] stores that value converted to [int] (negative from
    2^31 on), and [sem_destroy] succeeds only when the value is 0:
    otherwise it returns -1 and sets [errno] to [EBUSY]. *)
Theorem sem_init_then_query s pshared value e :
  0 <= value < 2 ^ 32 ->
  fst (sem_init s pshared value) = 0 /\
  sem_getvalue (snd (sem_init s pshared value)) =
    (0, if value <? 2 ^ 31 then value else value - 2 ^ 32) /\
  sem_destroy (snd (sem_init s pshared value)) e =
    (if value =? 0 then (0, e) else (-1, EBUSY)).
Proof.
  intros Hv. unfold sem_init, sem_getvalue, sem_destroy, k_sem_init, k_sem_count_get.
  cbn [fst snd sem_count]. unfold wrap_u32. rewrite Z.mod_small by exact Hv.
  split; [reflexivity|]. split.
  - f_equal. unfold wrap_s32. destruct (value <? 2 ^ 31) eqn:E.
    + apply Z.ltb_lt in E. rewrite Z.mod_small by lia. lia.
    + apply Z.ltb_ge in E.
      replace (value + 2 ^ 31) with (value - 2 ^ 31 + 1 * 2 ^ 32) by lia.
      rewrite Z.mod_add by lia. rewrite Z.mod_small by lia. lia.
  - now destruct (value =? 0).
Qed.

Lemma sem_init_then_query_witness :
  0 <= 3000000000 < 2 ^ 32 /\
  fst (sem_init sem0 0 3000000000) = 0 /\
  sem_getvalue (snd (sem_init sem0 0 3000000000)) =
    (0, if 3000000000 <? 2 ^ 31 then 3000000000 else 3000000000 - 2 ^ 32) /\
  sem_destroy (snd (sem_init sem0 0 3000000000)) 0 =
    (if 3000000000 =? 0 then (0, 0) else (-1, EBUSY)).
Proof.
  assert (Hv : 0 <= 3000000000 < 2 ^ 32) by lia.
  split; [exact Hv|].
  exact (sem_init_then_query sem0 0 3000000000 0 Hv).
Defined.

(** ** Long names *)

(** X17.  The table compares names only up to the first NUL within the
    first [PATH_MAX] = 64 characters: two names that agree there are one
    name to [find_by_name_nsem] and [sem_unlink], and to [sem_open] when
    a slot in use has the name. *)
Theorem names_compared_up_to_path_max nm nm' st :
  cstr nm PATH_MAX = cstr nm' PATH_MAX ->
  find_by_name_nsem nm st = find_by_name_nsem nm' st /\
  sem_unlink nm st = sem_unlink nm' st /\
  (forall oflag value,
      find_by_name_nsem nm st <> None ->
      sem_open nm oflag value st = sem_open nm' oflag value st).
Proof.
  intros Hc.
  assert (Hfind : find_by_name_nsem nm st = find_by_name_nsem nm' st).
  { unfold find_by_name_nsem. apply scan_ext; [reflexivity|].
    intros k it it' Hl Hl'. rewrite Hl in Hl'. inversion Hl'; subst it'.
    f_equal. unfold strncmp_slot. destruct (name it) as [s|]; [|reflexivity].
    destruct (Z.eqb_spec (strncmp nm s PATH_MAX) 0) as [H|H];
      destruct (Z.eqb_spec (strncmp nm' s PATH_MAX) 0) as [H'|H']; try reflexivity.
    - exfalso. apply H'. apply strncmp_zero_iff. rewrite <- Hc. now apply strncmp_zero_iff.
    - exfalso. apply H. apply strncmp_zero_iff. rewrite Hc. now apply strncmp_zero_iff. }
  split; [exact Hfind|]. split.
  - unfold sem_unlink. now rewrite Hfind.
  - intros oflag value Hsome. unfold sem_open. rewrite <- Hfind.
    destruct (find_by_name_nsem nm st); [reflexivity|contradiction].
Qed.

Lemma names_compared_up_to_path_max_witness :
  cstr long_y PATH_MAX = cstr long_x PATH_MAX /\
  long_y <> long_x /\
  find_by_name_nsem long_y opened_long = find_by_name_nsem long_x opened_long /\
  sem_unlink long_y opened_long = sem_unlink long_x opened_long /\
  (forall oflag value,
      find_by_name_nsem long_y opened_long <> None ->
      sem_open long_y oflag value opened_long = sem_open long_x oflag value opened_long).
Proof.
  assert (Hc : cstr long_y PATH_MAX = cstr long_x PATH_MAX) by (vm_compute; reflexivity).
  split; [exact Hc|]. split; [vm_compute; discriminate|].
  exact (names_compared_up_to_path_max long_y long_x opened_long Hc).
Defined.
